(** * Promise: a shallow embedding of [src/promise.h]

    The header implements a JavaScript-style promise in C++: a settlement
    record shared through [std::shared_ptr], two callback queues, [then]
    chaining with flattening of returned promises, and capture of native
    exceptions raised by user callbacks.

    The embedding keeps the source's structure:
    - the settlement records live in a heap (a list indexed by record
      identity, [std::make_shared] appends), and a promise handle holds an
      optional index, as [std::shared_ptr<State> d] may be null;
    - every [std::function] stored in a queue is a value of [Callable], one
      constructor per lambda of the source, carrying what the lambda captures;
    - code runs in a state monad over the heap with three abnormal results:
      a C++ exception in flight, undefined behaviour (dereferencing a null
      [shared_ptr]), and exhaustion of the recursion budget;
    - user callbacks are Rocq functions from the argument to a list of promise
      operations followed by a returned value or a thrown exception; every
      invocation of a user callback is recorded in a trace. *)

From Stdlib Require Import ZArith.
From stdpp Require Import base tactics option list strings.

Local Open Scope Z_scope.
Local Open Scope nat_scope.
Local Open Scope string_scope.
Local Open Scope list_scope.

(** ** Data model *)

(** [enum class PromiseState { Pending, Fulfilled, Rejected }] *)
Inductive PromiseState := Pending | Fulfilled | Rejected.

#[global] Instance PromiseState_eq_dec : EqDecision PromiseState.
Proof. solve_decision. Defined.

(** [struct PromiseError { std::string message; int code{0}; }] *)
Record PromiseError := mkError { message : string; code : Z }.

(** [PromiseError() = default] *)
Definition PromiseError_default : PromiseError := mkError "" 0%Z.

(** A native exception in flight: one derived from [std::exception], with its
    [what()], or anything else (caught by [catch (...)]). *)
Inductive Exn := StdException (what : string) | UnknownExn.

(** [PromiseError::fromException], [PromiseError::unknownException] *)
Definition fromException (what : string) : PromiseError := mkError what (-1)%Z.
Definition unknownException : PromiseError := mkError "Unknown exception" (-1)%Z.

(** The error built by the two [catch] clauses that follow every [try]. *)
Definition error_of_exn (x : Exn) : PromiseError :=
  match x with
  | StdException w => fromException w
  | UnknownExn => unknownException
  end.

Definition chaining_cycle : PromiseError :=
  mkError "Chaining cycle detected for promise" (-1)%Z.
Definition invalid_return_type : PromiseError :=
  mkError "Invalid return type" (-1)%Z.
Definition no_state : PromiseError :=
  mkError "Promise has no state" (-1)%Z.

(** The template argument of [Promise<T>]: [void], a plain value type
    (represented by [int]), or a promise type. *)
Inductive Ty := TVoid | TInt | TPromise (U : Ty).

#[global] Instance Ty_eq_dec : EqDecision Ty.
Proof. solve_decision. Defined.

Definition is_void (T : Ty) : bool :=
  match T with TVoid => true | _ => false end.

(** [PromiseTraits<R>::isPromise ? PromiseTraits<R>::ValueType : decay_t<R>] *)
Definition result_type (R : Ty) : Ty :=
  match R with TPromise V => V | _ => R end.

(** A promise handle. [d] is the shared pointer to the settlement record,
    [None] for the default-constructed promise. [m_resolveFn] and [m_rejectFn]
    are set by the executor constructor together with [d] and capture the same
    pointer, so the handle determines them: they are empty exactly when [d] is
    null. *)
Record Promise := mkPromise { ty : Ty; d : option nat }.

Inductive Val := VUnit | VInt (z : Z) | VPromise (p : Promise).

(** [T value{}] *)
Definition default_value (T : Ty) : Val :=
  match T with
  | TVoid => VUnit
  | TInt => VInt 0
  | TPromise U => VPromise (mkPromise U None)
  end.

(** The argument a queued callable is invoked with: the stored value
    ([OnFulfilled]; [VUnit] for the void variant) or the stored error
    ([OnRejected]). *)
Inductive Arg := AVal (v : Val) | AErr (e : PromiseError).

(** User code. A callback maps its argument to the promise operations it
    performs, in order, and then either throws or returns: [None] for a
    callback returning [void], [Some (VPromise p)] for one returning a promise
    and [Some v] for a plain value. [rty] is its declared return type, from
    which [then] computes the type of the promise it produces. *)
Inductive Act :=
| AResolve (p : Promise) (v : Val)
| AReject (p : Promise) (e : PromiseError)
| AThen (p : Promise) (f : Fn) (g : option Fn)
| ACatchError (p : Promise) (g : Fn)
with Fn :=
| mkFn (label : nat) (rty : Ty) (body : Arg -> list Act * (Exn + option Val)).

Definition label (f : Fn) : nat := let 'mkFn l _ _ := f in l.
Definition rty (f : Fn) : Ty := let 'mkFn _ R _ := f in R.
Definition body (f : Fn) : Arg -> list Act * (Exn + option Val) :=
  let 'mkFn _ _ b := f in b.

(** The executor receives the two capabilities bound to the record under
    construction; the handle stands for the pair. *)
Definition Executor := Promise -> list Act * option Exn.

(** The callables of the source, by the lambda that creates them. *)
Inductive Callable :=
| Empty (R : Ty)                     (* an empty std::function returning [R] *)
| User (f : Fn)                      (* a callable supplied by user code *)
| ResolveValue (next : Promise)      (* [resolve](const U& u) mutable { resolve(u); } *)
| ResolveVoid (next : Promise)       (* [resolve]() mutable { resolve(); } *)
| RejectWith (next : Promise)        (* [reject](const PromiseError& e) mutable { reject(e); } *)
| HandleFulfilled (onFulfilled : Callable) (next : Promise) (currentState : nat)
| HandleRejected (onRejected : Callable) (next : Promise) (currentState : nat).

(** [std::invoke_result_t<F, ...>]: the lambdas of the header return [void]. *)
Definition return_type (F : Callable) : Ty :=
  match F with User f => rty f | Empty R => R | _ => TVoid end.

(** [struct State]. The void specialisation has no [value] member; its record
    keeps the field at [VUnit] and never writes it. *)
Record State := mkState {
  state : PromiseState;
  value : Val;
  error : PromiseError;
  thenCallbacks : list Callable;
  catchCallbacks : list Callable
}.

Definition new_State (T : Ty) : State :=
  mkState Pending (default_value T) PromiseError_default [] [].

Definition set_state (st : PromiseState) (s : State) : State :=
  mkState st (value s) (error s) (thenCallbacks s) (catchCallbacks s).
Definition set_value (v : Val) (s : State) : State :=
  mkState (state s) v (error s) (thenCallbacks s) (catchCallbacks s).
Definition set_error (e : PromiseError) (s : State) : State :=
  mkState (state s) (value s) e (thenCallbacks s) (catchCallbacks s).
Definition push_then (cb : Callable) (s : State) : State :=
  mkState (state s) (value s) (error s) (thenCallbacks s ++ [cb]) (catchCallbacks s).
Definition push_catch (cb : Callable) (s : State) : State :=
  mkState (state s) (value s) (error s) (thenCallbacks s) (catchCallbacks s ++ [cb]).
Definition clear_queues (s : State) : State :=
  mkState (state s) (value s) (error s) [] [].

(** An invocation of a user callable, recorded when the call starts. *)
Inductive Event := Invoked (l : nat) (a : Arg).

Record Machine := mkMachine { heap : list State; trace : list Event }.

(** ** The monad of the embedding *)

Inductive Res (A : Type) :=
| Ret (a : A)          (* normal return *)
| Throw (x : Exn)      (* a C++ exception propagates *)
| Crash                (* undefined behaviour: null or dangling dereference *)
| OutOfFuel.           (* recursion budget exhausted *)
Arguments Ret {A} a.
Arguments Throw {A} x.
Arguments Crash {A}.
Arguments OutOfFuel {A}.

Definition M (A : Type) : Type := Machine -> Res A * Machine.

#[global] Instance M_ret : MRet M := fun A a m => (Ret a, m).
#[global] Instance M_bind : MBind M := fun A B k c m =>
  match c m with
  | (Ret a, m') => k a m'
  | (Throw x, m') => (Throw x, m')
  | (Crash, m') => (Crash, m')
  | (OutOfFuel, m') => (OutOfFuel, m')
  end.

Definition throw {A} (x : Exn) : M A := fun m => (Throw x, m).
Definition crash {A} : M A := fun m => (Crash, m).
Definition out_of_fuel {A} : M A := fun m => (OutOfFuel, m).

(** [try { c } catch (const std::exception& e) { h } catch (...) { h }]:
    the effects of [c] up to the throw are kept. *)
Definition try_catch {A} (c : M A) (h : Exn -> M A) : M A := fun m =>
  match c m with
  | (Throw x, m') => h x m'
  | r => r
  end.

(** [statePtr->...]: reading the record behind a pointer. *)
Definition deref (r : nat) : M State := fun m =>
  match heap m !! r with
  | Some s => (Ret s, m)
  | None => (Crash, m)
  end.

Definition store (r : nat) (s : State) : M unit := fun m =>
  (Ret tt, mkMachine (<[r := s]> (heap m)) (trace m)).

(** [std::make_shared<State>()] *)
Definition alloc (s : State) : M nat := fun m =>
  (Ret (length (heap m)), mkMachine (heap m ++ [s]) (trace m)).

Definition emit (e : Event) : M unit := fun m =>
  (Ret tt, mkMachine (heap m) (trace m ++ [e])).

(** ** The operations of the header

    Every function that may run a queued callable takes [call], the
    invocation of a callable, as a parameter; [invoke] below ties the knot. *)

Section Operations.

Variable call : Callable -> Arg -> M (option Val).

(** [for (auto& cb : queue) { if (cb) cb(a); }] over one of the two vectors of
    the record [r]. The range-for holds iterators into the vector. A callback
    that appends to this vector or clears it (a nested [catchError] or drain
    of [r]) invalidates them, and going on with the loop is undefined
    behaviour. [cbs] is what is left to visit and [n] the size of the vector
    when the loop started; a vector is only ever appended to or cleared, and
    the loop goes on only while the vector still has that size. *)
Fixpoint for_each (r : nat) (queue : State -> list Callable) (n : nat)
    (cbs : list Callable) (a : Arg) : M unit :=
  match cbs with
  | [] => mret tt
  | cb :: rest =>
      match cb with
      | Empty _ => mret tt
      | _ => _ ← call cb a; mret tt
      end;;
      s ← deref r;
      if Nat.eqb (length (queue s)) n then for_each r queue n rest a else crash
  end.

(** [State::maybeInvoke] (both specialisations; the void one calls [cb()]). *)
Definition maybeInvoke (r : nat) : M unit :=
  s ← deref r;
  match state s with
  | Fulfilled =>
      for_each r thenCallbacks (length (thenCallbacks s)) (thenCallbacks s)
        (AVal (value s));;
      s' ← deref r; store r (clear_queues s')
  | Rejected =>
      for_each r catchCallbacks (length (catchCallbacks s)) (catchCallbacks s)
        (AErr (error s));;
      s' ← deref r; store r (clear_queues s')
  | Pending => mret tt
  end.

(** [m_rejectFn = [statePtr](const PromiseError& err) { ... }] *)
Definition m_rejectFn (statePtr : option nat) (err : PromiseError) : M unit :=
  match statePtr with
  | None => mret tt
  | Some r =>
      s ← deref r;
      if decide (state s ≠ Pending) then mret tt
      else store r (set_error err (set_state Rejected s));; maybeInvoke r
  end.

(** [Promise<void>]: [m_resolveFn = [statePtr] { ... }] *)
Definition m_resolveFn_void (statePtr : option nat) : M unit :=
  match statePtr with
  | None => mret tt
  | Some r =>
      s ← deref r;
      if decide (state s ≠ Pending) then mret tt
      else store r (set_state Fulfilled s);; maybeInvoke r
  end.

(** [explicit Promise(Executor executor)], for an executor given as monadic
    code over the handle under construction. *)
Definition construct (T : Ty) (executor : Promise -> M unit) : M Promise :=
  r ← alloc (new_State T);
  let this := mkPromise T (Some r) in
  try_catch (executor this) (fun x => m_rejectFn (Some r) (error_of_exn x));;
  mret this.

(** [Promise& catchError(OnRejected onRejected)] *)
Definition catchError (this : Promise) (onRejected : Callable) : M Promise :=
  match d this with
  | Some r =>
      s ← deref r;
      store r (push_catch onRejected s);;
      maybeInvoke r
  | None => mret tt
  end;;
  mret this.

(** The executor that [then] gives to the new promise once [currentState] is
    known to be non-null. *)
Definition then_executor (handleFulfilled handleRejected : Callable)
    (currentState : nat) : M unit :=
  s ← deref currentState;
  match state s with
  | Fulfilled => _ ← call handleFulfilled (AVal (value s)); mret tt
  | Rejected => _ ← call handleRejected (AErr (error s)); mret tt
  | Pending => store currentState (push_catch handleRejected (push_then handleFulfilled s))
  end.

(** [then(F&& onFulfilled, std::nullptr_t)], to which [then(F&& onFulfilled)]
    forwards; the same text in [Promise<T>] and in [Promise<void>]. *)
Definition then_F (this : Promise) (onFulfilled : Callable) : M Promise :=
  let U := result_type (return_type onFulfilled) in
  match d this with
  | None => construct U (fun next => m_rejectFn (d next) no_state)
  | Some currentState =>
      construct U (fun next =>
        then_executor (HandleFulfilled onFulfilled next currentState)
                      (RejectWith next) currentState)
  end.

(** [Promise<T>::then(F&& onFulfilled, G&& onRejected)]: there is no test of
    [d]; the executor dereferences [currentState]. *)
Definition Promise_then_FG (this : Promise) (onFulfilled onRejected : Callable)
    : M Promise :=
  let U := result_type (return_type onFulfilled) in
  construct U (fun next =>
    match d this with
    | None => crash
    | Some currentState =>
        then_executor (HandleFulfilled onFulfilled next currentState)
                      (HandleRejected onRejected next currentState) currentState
    end).

(** [Promise<void>::then(F&& onFulfilled, G&& onRejected)] *)
Definition PromiseVoid_then_FG (this : Promise) (onFulfilled onRejected : Callable)
    : M Promise :=
  let U := result_type (return_type onFulfilled) in
  match d this with
  | None => construct U (fun next => m_rejectFn (d next) no_state)
  | Some currentState =>
      construct U (fun next =>
        then_executor (HandleFulfilled onFulfilled next currentState)
                      (HandleRejected onRejected next currentState) currentState)
  end.

(** Overload selection by the static type of the handle. *)
Definition then_FG (this : Promise) (onFulfilled onRejected : Callable) : M Promise :=
  if is_void (ty this) then PromiseVoid_then_FG this onFulfilled onRejected
  else Promise_then_FG this onFulfilled onRejected.

(** [Promise<T>]: [m_resolveFn = [statePtr](T value) { ... }]. The branch under
    [if constexpr (PromiseTraits<T>::isPromise)] (lines 66-86) exists only in
    [Promise<Promise<U>>], and there the constructor does not compile:
    [value.d] is a private member of another class and a pointer of another
    type than [statePtr], and [statePtr->value = v] assigns a [U] to a
    [Promise<U>]. So no record has a promise type, the branch is in no
    program, and a value that is a promise does not type-check here: it is
    undefined in the embedding. *)
Definition m_resolveFn (statePtr : option nat) (v : Val) : M unit :=
  match statePtr with
  | None => mret tt
  | Some r =>
      s ← deref r;
      if decide (state s ≠ Pending) then mret tt
      else
        match v with
        | VPromise _ => crash
        | _ =>
            store r (set_value v (set_state Fulfilled s));;
            maybeInvoke r
        end
  end.

(** [void resolve(T value)] and [void resolve()]: the stored function is
    called when it is not empty. *)
Definition resolve (this : Promise) (v : Val) : M unit :=
  if is_void (ty this) then m_resolveFn_void (d this) else m_resolveFn (d this) v.

(** [void reject(const PromiseError& err)] *)
Definition reject (this : Promise) (err : PromiseError) : M unit :=
  m_rejectFn (d this) err.

(** What [handleFulfilled] and [handleRejected] do with the callback's result,
    inside their [try] block: the [if constexpr] cascade on the return type
    [R] of the callback and on the value type [U] of the new promise. *)
Definition settle_from_result (next : Promise) (currentState : nat)
    (result : option Val) : M unit :=
  match result with
  | None =>
      if is_void (ty next) then m_resolveFn_void (d next)
      else m_rejectFn (d next) invalid_return_type
  | Some (VPromise result) =>
      if decide (d result = Some currentState) then
        m_rejectFn (d next) chaining_cycle
      else
        _ ← then_F result
              (if is_void (ty result) then ResolveVoid next else ResolveValue next);
        _ ← catchError result (RejectWith next);
        mret tt
  | Some result => m_resolveFn (d next) result
  end.

(** The body of the [handleFulfilled] and [handleRejected] lambdas of [then]
    (for [handleRejected], the branch with a rejection handler). *)
Definition handle (callback : Callable) (next : Promise) (currentState : nat)
    (a : Arg) : M unit :=
  try_catch
    (result ← call callback a; settle_from_result next currentState result)
    (fun x => m_rejectFn (d next) (error_of_exn x)).

Definition run_act (a : Act) : M unit :=
  match a with
  | AResolve p v => resolve p v
  | AReject p e => reject p e
  | AThen p f None => _ ← then_F p (User f); mret tt
  | AThen p f (Some g) => _ ← then_FG p (User f) (User g); mret tt
  | ACatchError p g => _ ← catchError p (User g); mret tt
  end.

Fixpoint run_acts (acts : list Act) : M unit :=
  match acts with
  | [] => mret tt
  | a :: rest => run_act a;; run_acts rest
  end.

(** Calling a callable. An empty [std::function] throws
    [std::bad_function_call]; a callable applied to an argument of the other
    kind does not type-check in the source and is undefined here. *)
Definition invoke_body (cb : Callable) (a : Arg) : M (option Val) :=
  match cb, a with
  | Empty _, _ => throw (StdException "bad_function_call")
  | User f, _ =>
      emit (Invoked (label f) a);;
      run_acts (fst (body f a));;
      match snd (body f a) with
      | inl x => throw x
      | inr result => mret result
      end
  | ResolveValue next, AVal u => m_resolveFn (d next) u;; mret None
  | ResolveVoid next, AVal _ => m_resolveFn_void (d next);; mret None
  | RejectWith next, AErr e => m_rejectFn (d next) e;; mret None
  | HandleFulfilled onFulfilled next currentState, AVal _ =>
      handle onFulfilled next currentState a;; mret None
  | HandleRejected onRejected next currentState, AErr _ =>
      handle onRejected next currentState a;; mret None
  | _, _ => crash
  end.

(** The call [executor(m_resolveFn, m_rejectFn)] of a user executor. *)
Definition run_executor (executor : Executor) (this : Promise) : M unit :=
  run_acts (fst (executor this));;
  match snd (executor this) with
  | Some x => throw x
  | None => mret tt
  end.

(** [Promise(Executor)] for an executor of user code. *)
Definition Promise_new (T : Ty) (executor : Executor) : M Promise :=
  construct T (run_executor executor).

End Operations.

(** The recursion budget bounds the nesting depth of callable invocations. *)
Fixpoint invoke (fuel : nat) (cb : Callable) (a : Arg) : M (option Val) :=
  match fuel with
  | O => out_of_fuel
  | S n => invoke_body (invoke n) cb a
  end.

(** [PromiseState state() const { return d ? d->state : Pending; }] *)
Definition state_of (p : Promise) (m : Machine) : PromiseState :=
  match d p with
  | Some r => match heap m !! r with Some s => state s | None => Pending end
  | None => Pending
  end.

Definition empty_machine : Machine := mkMachine [] [].


(** ** Notions used by the statements *)

(** [frozen m m']: every record of [m] is still in [m'], a record that had
    left [Pending] has the same status, value and error, and the trace of [m]
    is a prefix of the trace of [m']. *)
Definition frozen (m m' : Machine) : Prop :=
  (forall r s, heap m !! r = Some s ->
     exists s', heap m' !! r = Some s' /\
       (state s ≠ Pending ->
        state s' = state s /\ value s' = value s /\ error s' = error s)) /\
  (exists rest, trace m' = trace m ++ rest).

(** [preserves c]: running [c] never changes a settled record. *)
Definition preserves {A} (c : M A) : Prop := forall m, frozen m (snd (c m)).

(** A value that is not a promise. *)
Definition plain (v : Val) : Prop :=
  match v with VPromise _ => False | _ => True end.

(** A callback result that is not a promise: an exception, nothing, or a
    plain value. *)
Definition plain_outcome (out : Exn + option Val) : Prop :=
  match out with inr (Some (VPromise _)) => False | _ => True end.

(** The record of the promise produced by [then] once its continuation has
    run, for a continuation that ended with [out]. *)
Definition after_callback (U : Ty) (out : Exn + option Val) (sk : State) : State :=
  match out with
  | inl x => mkState Rejected (value sk) (error_of_exn x) [] []
  | inr None =>
      if is_void U then mkState Fulfilled (value sk) (error sk) [] []
      else mkState Rejected (value sk) invalid_return_type [] []
  | inr (Some v) => mkState Fulfilled v (error sk) [] []
  end.

(** The records [outer] and [inner] have the same status, the same error when
    rejected, and (for a value-bearing inner promise) the same value when
    fulfilled. *)
Definition same_settlement (m : Machine) (outer inner : nat) (with_value : bool) : Prop :=
  exists so si, heap m !! outer = Some so /\ heap m !! inner = Some si /\
    state so = state si /\
    (state si = Rejected -> error so = error si) /\
    (state si = Fulfilled -> with_value = true -> value so = value si).

(** The record [k] has left [Pending]: its status is [st] and it holds the
    value [v] and the error [e]. *)
Definition settled_with (m : Machine) (k : nat) (st : PromiseState) (v : Val)
    (e : PromiseError) : Prop :=
  st ≠ Pending /\
  exists s, heap m !! k = Some s /\ state s = st /\ value s = v /\ error s = e.

Definition fulfilled_with (m : Machine) (k : nat) (with_value : bool) (u : Val) : Prop :=
  exists s, heap m !! k = Some s /\ state s = Fulfilled /\
    (with_value = true -> value s = u).

Definition rejected_with (m : Machine) (k : nat) (e : PromiseError) : Prop :=
  exists s, heap m !! k = Some s /\ state s = Rejected /\ error s = e.

(** ** Programs used as examples *)

(** [[](auto, auto) {}] *)
Definition no_op : Executor := fun _ => ([], None).

(** [[](auto resolve, auto) { resolve(5); }] *)
Definition resolve_5 : Executor := fun this => ([AResolve this (VInt 5)], None).

(** [[](auto resolve, auto) { resolve(5); throw std::runtime_error("boom"); }] *)
Definition resolve_then_throw : Executor :=
  fun this => ([AResolve this (VInt 5)], Some (StdException "boom")).

(** [[](auto, auto) { throw 42; }] *)
Definition throw_unknown : Executor := fun _ => ([], Some UnknownExn).

(** [[](const PromiseError&) { throw std::runtime_error("boom"); }] *)
Definition throwing_handler : Fn :=
  mkFn 1 TVoid (fun _ => ([], inl (StdException "boom"))).

(** [[](const PromiseError&) {}], labelled [l] *)
Definition silent_handler (l : nat) : Fn := mkFn l TVoid (fun _ => ([], inr None)).

(** [[](const int& v) { return v + 1; }], labelled [l] *)
Definition successor (l : nat) : Fn :=
  mkFn l TInt (fun a =>
    ([], inr (Some (match a with AVal (VInt z) => VInt (z + 1) | _ => VInt 0 end)))).

(** [[](const PromiseError&) { return -1; }], labelled [l] *)
Definition recover (l : nat) : Fn := mkFn l TInt (fun _ => ([], inr (Some (VInt (-1))))).

(** A continuation that returns a copy of the promise whose record is [r]. *)
Definition returns_promise (l : nat) (r : nat) : Fn :=
  mkFn l (TPromise TInt) (fun _ => ([], inr (Some (VPromise (mkPromise TInt (Some r)))))).

(** [p.catchError(g); p.reject(e);] *)
Definition catchError_then_reject (fuel : nat) (p : Promise) (g : Fn)
    (e : PromiseError) : M unit :=
  p' ← catchError (invoke fuel) p (User g);
  reject (invoke fuel) p' e.

(** [Promise<int> p([](auto, auto) {}); Promise<int> p2;
     p2 = p.then([&p2](const int&) { return p2; }); p.resolve(7);]
    The record of [p2] is the second one allocated. *)
Definition self_return_scenario (fuel : nat) : M Promise :=
  p ← Promise_new (invoke fuel) TInt no_op;
  p2 ← then_F (invoke fuel) p (User (returns_promise 1 1));
  resolve (invoke fuel) p (VInt 7);;
  mret p2.

(** [auto p = Promise<int>::resolved(5);
     auto q = p.then([p](const int&) { return p; });] *)
Definition source_return_scenario (fuel : nat) : M Promise :=
  p ← Promise_new (invoke fuel) TInt resolve_5;
  then_F (invoke fuel) p (User (returns_promise 1 0)).

(** A machine holding one promise fulfilled with 5. *)
Definition fulfilled_5 : Machine :=
  mkMachine [mkState Fulfilled (VInt 5) PromiseError_default [] []] [].

(** A machine holding one promise rejected with ("boom", 7), drained. *)
Definition rejected_boom : Machine :=
  mkMachine [mkState Rejected (VInt 0) (mkError "boom" 7%Z) [] []] [].

(** A machine holding one pending promise without continuations. *)
Definition pending_1 : Machine := mkMachine [new_State TInt] [].

(** A machine holding a promise fulfilled with 5 and a pending promise on
    which [throwing_handler] has been registered with [catchError]. *)
Definition fulfilled_5_guarded : Machine :=
  mkMachine [mkState Fulfilled (VInt 5) PromiseError_default [] [];
             mkState Pending (VInt 0) PromiseError_default [] [User throwing_handler]] [].

(** A machine holding a promise fulfilled with 5 and one fulfilled with 9. *)
Definition fulfilled_5_9 : Machine :=
  mkMachine [mkState Fulfilled (VInt 5) PromiseError_default [] [];
             mkState Fulfilled (VInt 9) PromiseError_default [] []] [].

(** ** Factories, the message overload of [reject], and inspection *)

(** [void reject(const std::string& message, int code = 0)] *)
Definition reject_message (call : Callable -> Arg -> M (option Val))
    (this : Promise) (message : string) (code : Z) : M unit :=
  reject call this (mkError message code).

(** [static Promise resolved(T val)] and [static Promise resolved()]: the
    executor calls the [resolve] capability of the new promise. *)
Definition Promise_resolved (call : Callable -> Arg -> M (option Val))
    (T : Ty) (val : Val) : M Promise :=
  construct call T (fun this => resolve call this val).

(** [static Promise rejected(const PromiseError& err)] *)
Definition Promise_rejected (call : Callable -> Arg -> M (option Val))
    (T : Ty) (err : PromiseError) : M Promise :=
  construct call T (fun this => reject call this err).

(** [static Promise rejected(const std::string& message, int code = 0)] *)
Definition Promise_rejected_message (call : Callable -> Arg -> M (option Val))
    (T : Ty) (message : string) (code : Z) : M Promise :=
  Promise_rejected call T (mkError message code).

(** [bool isPending() const], [isFulfilled], [isRejected] *)
Definition isPending (p : Promise) (m : Machine) : bool :=
  bool_decide (state_of p m = Pending).
Definition isFulfilled (p : Promise) (m : Machine) : bool :=
  bool_decide (state_of p m = Fulfilled).
Definition isRejected (p : Promise) (m : Machine) : bool :=
  bool_decide (state_of p m = Rejected).

(** [const T& value() const { return d->value; }]: no test of [d]. *)
Definition value_of (p : Promise) : M Val :=
  match d p with
  | Some r => s ← deref r; mret (value s)
  | None => crash
  end.

(** [Promise<T>]: [const PromiseError& error() const { return d->error; }];
    [Promise<void>]: [PromiseError error() const
    { return d ? d->error : PromiseError(); }] *)
Definition error_of (p : Promise) : M PromiseError :=
  match d p with
  | Some r => s ← deref r; mret (error s)
  | None => if is_void (ty p) then mret PromiseError_default else crash
  end.

(** ** Notions used by the further properties *)

(** Every record of the machine satisfies [P]. *)
Definition all_records (P : State -> Prop) (m : Machine) : Prop :=
  forall r s, heap m !! r = Some s -> P s.

(** [keeps P c]: running [c] keeps [P] true of every record. *)
Definition keeps {A} (P : State -> Prop) (c : M A) : Prop :=
  forall m, all_records P m -> all_records P (snd (c m)).

(** At most one of the stored value and the stored error has been written:
    a record that is not [Rejected] holds the default error, and a record that
    is not [Fulfilled] holds the default value [T{}] of its type. *)
Definition one_outcome (s : State) : Prop :=
  (state s ≠ Rejected -> error s = PromiseError_default) /\
  (state s ≠ Fulfilled -> exists T, value s = default_value T).

(** [p.then(f); p.resolve(v);] *)
Definition then_and_resolve (fuel : nat) (p : Promise) (f : Fn) (v : Val) : M unit :=
  _ ← then_F (invoke fuel) p (User f);
  resolve (invoke fuel) p v.


(** [p.then(F1).then(F2)...then(Fk)] *)
Fixpoint then_chain (call : Callable -> Arg -> M (option Val)) (p : Promise)
    (fs : list Callable) : M Promise :=
  match fs with
  | [] => mret p
  | F :: rest => q ← then_F call p F; then_chain call q rest
  end.

(** A continuation that registers [g] on the promise on record [r] with
    [catchError] and returns 0:
    [[&p](const int&) { p.catchError(g); return 0; }] *)
Definition registers_catch (l : nat) (r : nat) (g : Fn) : Fn :=
  mkFn l TInt (fun _ => ([ACatchError (mkPromise TInt (Some r)) g], inr (Some (VInt 0)))).

(** A continuation that returns a default-constructed promise:
    [[](const int&) { return Promise<int>(); }] *)
Definition returns_null_promise (l : nat) : Fn :=
  mkFn l (TPromise TInt) (fun _ => ([], inr (Some (VPromise (mkPromise TInt None))))).

(** A machine holding one promise rejected with ("x", 1) whose rejection drain
    was aborted by [throwing_handler], still queued. *)
Definition poisoned : Machine :=
  mkMachine [mkState Rejected (VInt 0) (mkError "x" 1%Z) [] [User throwing_handler]]
            [Invoked 1 (AErr (mkError "x" 1%Z))].

(** ** The concrete scenarios of the specification *)

(** [Promise<int>([](resolve, reject) { resolve(5); })
       .then([](int v) { return v + 1; })] settles fulfilled with 6. *)
Example then_successor_of_5 :
  (p ← Promise_new (invoke 2) TInt resolve_5;
   then_F (invoke 2) p (User (successor 1))) empty_machine =
  (Ret (mkPromise TInt (Some 1)),
   mkMachine [mkState Fulfilled (VInt 5) PromiseError_default [] [];
              mkState Fulfilled (VInt 6) PromiseError_default [] []]
             [Invoked 1 (AVal (VInt 5))]).
Proof. reflexivity. Qed.

(** [Promise<int>::rejected("boom", 7)
       .then([](int v) { return v; }, [](auto& e) { return -1; })] settles
    fulfilled with -1. *)
Example then_recovers_from_boom :
  then_FG (invoke 2) (mkPromise TInt (Some 0)) (User (successor 1)) (User (recover 2))
    rejected_boom =
  (Ret (mkPromise TInt (Some 1)),
   mkMachine [mkState Rejected (VInt 0) (mkError "boom" 7%Z) [] [];
              mkState Fulfilled (VInt (-1)) PromiseError_default [] []]
             [Invoked 2 (AErr (mkError "boom" 7%Z))]).
Proof. reflexivity. Qed.

(** [then] on a pending promise, then [resolve(3)]: the continuation is
    invoked with 3. *)
Example pending_then_resolve_3 :
  (_ ← then_F (invoke 2) (mkPromise TInt (Some 0)) (User (successor 1));
   resolve (invoke 2) (mkPromise TInt (Some 0)) (VInt 3)) pending_1 =
  (Ret tt,
   mkMachine [mkState Fulfilled (VInt 3) PromiseError_default [] [];
              mkState Fulfilled (VInt 4) PromiseError_default [] []]
             [Invoked 1 (AVal (VInt 3))]).
Proof. reflexivity. Qed.

(** [p] is fulfilled with 5 and the continuation of [p.then] returns a
    promise fulfilled with 9: the new promise is fulfilled with 9, beside the
    temporary [Promise<void>] made by [result.then]. *)
Example then_flattens_fulfilled :
  then_F (invoke 3) (mkPromise TInt (Some 0)) (User (returns_promise 1 1)) fulfilled_5_9 =
  (Ret (mkPromise TInt (Some 2)),
   mkMachine [mkState Fulfilled (VInt 5) PromiseError_default [] [];
              mkState Fulfilled (VInt 9) PromiseError_default [] [];
              mkState Fulfilled (VInt 9) PromiseError_default [] [];
              mkState Fulfilled VUnit PromiseError_default [] []]
             [Invoked 1 (AVal (VInt 5))]).
Proof. reflexivity. Qed.

(** ** Running computations *)

Lemma bind_run {A B} (c : M A) (k : A -> M B) (m : Machine) :
  (c ≫= k) m =
  match c m with
  | (Ret a, m') => k a m'
  | (Throw x, m') => (Throw x, m')
  | (Crash, m') => (Crash, m')
  | (OutOfFuel, m') => (OutOfFuel, m')
  end.
Proof. reflexivity. Qed.

Lemma ret_run {A} (a : A) (m : Machine) : (mret a : M A) m = (Ret a, m).
Proof. reflexivity. Qed.

Lemma bind_ret {A B} (c : M A) (k : A -> M B) m a m' :
  c m = (Ret a, m') -> (c ≫= k) m = k a m'.
Proof. intros H. rewrite bind_run, H. reflexivity. Qed.

Lemma deref_run r m s : heap m !! r = Some s -> deref r m = (Ret s, m).
Proof. intros H. unfold deref. rewrite H. reflexivity. Qed.

Lemma try_catch_ret {A} (c : M A) h m a m' :
  c m = (Ret a, m') -> try_catch c h m = (Ret a, m').
Proof. intros H. unfold try_catch. rewrite H. reflexivity. Qed.

Lemma try_catch_throw {A} (c : M A) h m x m' :
  c m = (Throw x, m') -> try_catch c h m = h x m'.
Proof. intros H. unfold try_catch. rewrite H. reflexivity. Qed.

Lemma invoke_S n cb a : invoke (S n) cb a = invoke_body (invoke n) cb a.
Proof. reflexivity. Qed.

Lemma invoke_HandleFulfilled n F next cs v :
  invoke (S n) (HandleFulfilled F next cs) (AVal v) =
  (handle (invoke n) F next cs (AVal v);; mret None).
Proof. reflexivity. Qed.

Lemma invoke_HandleRejected n G next cs e :
  invoke (S n) (HandleRejected G next cs) (AErr e) =
  (handle (invoke n) G next cs (AErr e);; mret None).
Proof. reflexivity. Qed.

(** ** Lookups in a heap after allocations and writes *)

Lemma lookup_snoc_at {A} (h : list A) x j : j = length h -> (h ++ [x]) !! j = Some x.
Proof.
  intros ->. rewrite lookup_app_r by reflexivity. rewrite Nat.sub_diag. reflexivity.
Qed.

Lemma insert_snoc_at {A} (h : list A) x y j :
  j = length h -> <[j := y]> (h ++ [x]) = h ++ [y].
Proof.
  intros ->. rewrite insert_app_r_alt by reflexivity. rewrite Nat.sub_diag. reflexivity.
Qed.

Lemma lookup_app_one_l {A} (l : list A) x j :
  j < length l -> (l ++ [x]) !! j = l !! j.
Proof. intros H. apply lookup_app_l. exact H. Qed.

Lemma lookup_insert_same {A} (l : list A) k j x :
  j = k -> k < length l -> <[k := x]> l !! j = Some x.
Proof. intros -> H. apply list_lookup_insert_eq. exact H. Qed.

(** ** Settlement is final: the frozen-record invariant *)

Lemma frozen_refl m : frozen m m.
Proof.
  split.
  - intros r s H. exists s. auto.
  - exists []. symmetry. apply app_nil_r.
Qed.

Lemma frozen_trans m1 m2 m3 : frozen m1 m2 -> frozen m2 m3 -> frozen m1 m3.
Proof.
  intros [H12 [t12 T12]] [H23 [t23 T23]]. split.
  - intros r s H.
    destruct (H12 r s H) as (s2 & L2 & K2).
    destruct (H23 r s2 L2) as (s3 & L3 & K3).
    exists s3. split; [exact L3|].
    intros Hs. destruct (K2 Hs) as (E1 & E2 & E3).
    destruct K3 as (F1 & F2 & F3); [congruence|].
    repeat split; congruence.
  - exists (t12 ++ t23). rewrite T23, T12. symmetry. apply app_assoc.
Qed.

Lemma frozen_alloc m s : frozen m (mkMachine (heap m ++ [s]) (trace m)).
Proof.
  split.
  - intros r s0 H. exists s0. split; [|auto]. simpl.
    rewrite lookup_app_l; [exact H|]. eapply lookup_lt_Some; eauto.
  - exists []. symmetry. apply app_nil_r.
Qed.

Lemma frozen_emit m e : frozen m (mkMachine (heap m) (trace m ++ [e])).
Proof.
  split.
  - intros r s H. exists s. auto.
  - exists [e]. reflexivity.
Qed.

(** A write that keeps status, value and error (queue pushes and clears). *)
Lemma frozen_store_same m r s s' :
  heap m !! r = Some s ->
  state s' = state s -> value s' = value s -> error s' = error s ->
  frozen m (mkMachine (<[r := s']> (heap m)) (trace m)).
Proof.
  intros H E1 E2 E3. split; [|exists []; symmetry; apply app_nil_r].
  intros j sj Hj. simpl.
  destruct (decide (r = j)) as [->|Hne].
  - exists s'. rewrite list_lookup_insert_eq by (eapply lookup_lt_Some; eauto).
    split; [reflexivity|]. intros _. replace sj with s by congruence. auto.
  - exists sj. rewrite list_lookup_insert_ne by exact Hne. auto.
Qed.

(** A write to a record that is still pending. *)
Lemma frozen_store_pending m r s s' :
  heap m !! r = Some s -> state s = Pending ->
  frozen m (mkMachine (<[r := s']> (heap m)) (trace m)).
Proof.
  intros H E. split; [|exists []; symmetry; apply app_nil_r].
  intros j sj Hj. simpl.
  destruct (decide (r = j)) as [->|Hne].
  - exists s'. rewrite list_lookup_insert_eq by (eapply lookup_lt_Some; eauto).
    split; [reflexivity|]. intros Hs. exfalso. apply Hs. congruence.
  - exists sj. rewrite list_lookup_insert_ne by exact Hne. auto.
Qed.

Lemma preserves_ret {A} (a : A) : preserves (mret a).
Proof. intros m. apply frozen_refl. Qed.

Lemma preserves_throw {A} x : preserves (@throw A x).
Proof. intros m. apply frozen_refl. Qed.

Lemma preserves_crash {A} : preserves (@crash A).
Proof. intros m. apply frozen_refl. Qed.

Lemma preserves_out_of_fuel {A} : preserves (@out_of_fuel A).
Proof. intros m. apply frozen_refl. Qed.

Lemma preserves_bind {A B} (c : M A) (k : A -> M B) :
  preserves c -> (forall a, preserves (k a)) -> preserves (c ≫= k).
Proof.
  intros Hc Hk m. rewrite bind_run. specialize (Hc m).
  destruct (c m) as [[a|x| |] m']; simpl in *; try exact Hc.
  eapply frozen_trans; [exact Hc|apply Hk].
Qed.

Lemma preserves_try_catch {A} (c : M A) h :
  preserves c -> (forall x, preserves (h x)) -> preserves (try_catch c h).
Proof.
  intros Hc Hh m. unfold try_catch. specialize (Hc m).
  destruct (c m) as [[a|x| |] m']; simpl in *; try exact Hc.
  eapply frozen_trans; [exact Hc|apply Hh].
Qed.

Lemma preserves_deref r : preserves (deref r).
Proof. intros m. unfold deref. destruct (heap m !! r); apply frozen_refl. Qed.

Lemma preserves_alloc s : preserves (alloc s).
Proof. intros m. apply frozen_alloc. Qed.

Lemma preserves_emit e : preserves (emit e).
Proof. intros m. apply frozen_emit. Qed.

(** Reading a record and then running code that depends on it: the code may
    assume the record is the current one. *)
Lemma preserves_deref_bind {A} r (k : State -> M A) :
  (forall m s, heap m !! r = Some s -> frozen m (snd (k s m))) ->
  preserves (deref r ≫= k).
Proof.
  intros Hk m. rewrite bind_run. unfold deref.
  destruct (heap m !! r) as [s|] eqn:E; [apply Hk; exact E|apply frozen_refl].
Qed.

(** [s ← deref r; store r (g s)] for a [g] that keeps the settled fields. *)
Lemma preserves_update r (g : State -> State) :
  (forall s, state (g s) = state s /\ value (g s) = value s /\ error (g s) = error s) ->
  preserves (s ← deref r; store r (g s)).
Proof.
  intros Hg. apply preserves_deref_bind. intros m s H. simpl.
  destruct (Hg s) as (E1 & E2 & E3). eapply frozen_store_same; eauto.
Qed.

(** The settlement pattern of the source: test for [Pending], write, drain. *)
Lemma preserves_settle r (f : State -> State) (k : M unit) :
  preserves k ->
  preserves (s ← deref r;
             if decide (state s ≠ Pending) then mret tt else store r (f s);; k).
Proof.
  intros Hk. apply preserves_deref_bind. intros m s H.
  destruct (decide (state s ≠ Pending)) as [Hs|Hs]; [apply frozen_refl|].
  rewrite bind_run. simpl.
  eapply frozen_trans; [|apply Hk].
  eapply frozen_store_pending; [exact H|].
  destruct (state s); try reflexivity; exfalso; apply Hs; discriminate.
Qed.

Section OperationsPreserve.

Variable call : Callable -> Arg -> M (option Val).
Hypothesis call_preserves : forall cb a, preserves (call cb a).

Lemma preserves_for_each r queue n cbs a :
  preserves (for_each call r queue n cbs a).
Proof.
  induction cbs as [|cb rest IH]; simpl; [apply preserves_ret|].
  apply preserves_bind.
  - destruct cb; try apply preserves_ret;
      (apply preserves_bind; [apply call_preserves|intros; apply preserves_ret]).
  - intros _. apply preserves_bind; [apply preserves_deref|]. intros s.
    destruct (length (queue s) =? n)%nat; [exact IH|apply preserves_crash].
Qed.

Lemma preserves_maybeInvoke r : preserves (maybeInvoke call r).
Proof.
  unfold maybeInvoke. apply preserves_bind; [apply preserves_deref|].
  intros s. destruct (state s); [apply preserves_ret| |];
    (apply preserves_bind; [apply preserves_for_each|intros _]);
    apply (preserves_update r clear_queues); intros; auto.
Qed.

Lemma preserves_m_rejectFn statePtr err : preserves (m_rejectFn call statePtr err).
Proof.
  destruct statePtr as [r|]; simpl; [|apply preserves_ret].
  apply (preserves_settle r (fun s => set_error err (set_state Rejected s))).
  apply preserves_maybeInvoke.
Qed.

Lemma preserves_m_resolveFn_void statePtr : preserves (m_resolveFn_void call statePtr).
Proof.
  destruct statePtr as [r|]; simpl; [|apply preserves_ret].
  apply (preserves_settle r (set_state Fulfilled)).
  apply preserves_maybeInvoke.
Qed.

Lemma preserves_construct T executor :
  (forall this, preserves (executor this)) -> preserves (construct call T executor).
Proof.
  intros He. unfold construct.
  apply preserves_bind; [apply preserves_alloc|]. intros r.
  apply preserves_bind; [|intros; apply preserves_ret].
  apply preserves_try_catch; [apply He|].
  intros x. apply preserves_m_rejectFn.
Qed.

Lemma preserves_catchError this onRejected :
  preserves (catchError call this onRejected).
Proof.
  unfold catchError. apply preserves_bind; [|intros; apply preserves_ret].
  destruct (d this) as [r|]; [|apply preserves_ret].
  apply preserves_deref_bind. intros m s H. rewrite bind_run. simpl.
  eapply frozen_trans; [|apply preserves_maybeInvoke].
  eapply frozen_store_same; eauto.
Qed.

Lemma preserves_then_executor hF hR currentState :
  preserves (then_executor call hF hR currentState).
Proof.
  unfold then_executor. apply preserves_deref_bind. intros m s H.
  destruct (state s) eqn:E.
  - simpl. eapply frozen_store_same; eauto.
  - apply (preserves_bind (call hF (AVal (value s)))); [apply call_preserves|].
    intros; apply preserves_ret.
  - apply (preserves_bind (call hR (AErr (error s)))); [apply call_preserves|].
    intros; apply preserves_ret.
Qed.

Lemma preserves_then_F this onFulfilled : preserves (then_F call this onFulfilled).
Proof.
  unfold then_F. destruct (d this) as [r|]; apply preserves_construct; intros next.
  - apply preserves_then_executor.
  - apply preserves_m_rejectFn.
Qed.

Lemma preserves_then_FG this onFulfilled onRejected :
  preserves (then_FG call this onFulfilled onRejected).
Proof.
  unfold then_FG, PromiseVoid_then_FG, Promise_then_FG.
  destruct (is_void (ty this)), (d this) as [r|];
    apply preserves_construct; intros next;
    first [apply preserves_then_executor|apply preserves_m_rejectFn|apply preserves_crash].
Qed.

Lemma preserves_m_resolveFn statePtr v : preserves (m_resolveFn call statePtr v).
Proof.
  destruct statePtr as [r|]; simpl; [|apply preserves_ret].
  apply preserves_deref_bind. intros m s H.
  destruct (decide (state s ≠ Pending)) as [Hs|Hs]; [apply frozen_refl|].
  assert (Hp : state s = Pending).
  { destruct (state s); try reflexivity; exfalso; apply Hs; discriminate. }
  assert (Hplain : forall v', frozen m
            (snd ((store r (set_value v' (set_state Fulfilled s));; maybeInvoke call r) m))).
  { intros v'. rewrite bind_run. simpl.
    eapply frozen_trans; [|apply preserves_maybeInvoke].
    eapply frozen_store_pending; eauto. }
  destruct v as [|z|inner]; try apply Hplain. apply frozen_refl.
Qed.

Lemma preserves_resolve this v : preserves (resolve call this v).
Proof.
  unfold resolve. destruct (is_void (ty this));
    [apply preserves_m_resolveFn_void|apply preserves_m_resolveFn].
Qed.

Lemma preserves_reject this err : preserves (reject call this err).
Proof. apply preserves_m_rejectFn. Qed.

Lemma preserves_settle_from_result next currentState result :
  preserves (settle_from_result call next currentState result).
Proof.
  unfold settle_from_result. destruct result as [[|z|result]|].
  - apply preserves_m_resolveFn.
  - apply preserves_m_resolveFn.
  - destruct (decide (d result = Some currentState)); [apply preserves_m_rejectFn|].
    apply preserves_bind; [apply preserves_then_F|]. intros _.
    apply preserves_bind; [apply preserves_catchError|]. intros; apply preserves_ret.
  - destruct (is_void (ty next));
      [apply preserves_m_resolveFn_void|apply preserves_m_rejectFn].
Qed.

Lemma preserves_handle callback next currentState a :
  preserves (handle call callback next currentState a).
Proof.
  unfold handle. apply preserves_try_catch.
  - apply preserves_bind; [apply call_preserves|].
    intros result. apply preserves_settle_from_result.
  - intros x. apply preserves_m_rejectFn.
Qed.

Lemma preserves_run_act a : preserves (run_act call a).
Proof.
  destruct a as [p v|p e|p f [g|]|p g]; simpl.
  - apply preserves_resolve.
  - apply preserves_reject.
  - apply preserves_bind; [apply preserves_then_FG|intros; apply preserves_ret].
  - apply preserves_bind; [apply preserves_then_F|intros; apply preserves_ret].
  - apply preserves_bind; [apply preserves_catchError|intros; apply preserves_ret].
Qed.

Lemma preserves_run_acts acts : preserves (run_acts call acts).
Proof.
  induction acts as [|a rest IH]; simpl; [apply preserves_ret|].
  apply preserves_bind; [apply preserves_run_act|intros _; exact IH].
Qed.

Lemma preserves_invoke_body cb a : preserves (invoke_body call cb a).
Proof.
  unfold invoke_body.
  destruct cb as [R|f|next|next|next|F next cs|G next cs].
  - apply preserves_throw.
  - apply preserves_bind; [apply preserves_emit|]. intros _.
    apply preserves_bind; [apply preserves_run_acts|]. intros _.
    destruct (snd (body f a)); [apply preserves_throw|apply preserves_ret].
  - destruct a; [|apply preserves_crash].
    apply preserves_bind; [apply preserves_m_resolveFn|intros; apply preserves_ret].
  - destruct a; [|apply preserves_crash].
    apply preserves_bind; [apply preserves_m_resolveFn_void|intros; apply preserves_ret].
  - destruct a; [apply preserves_crash|].
    apply preserves_bind; [apply preserves_m_rejectFn|intros; apply preserves_ret].
  - destruct a; [|apply preserves_crash].
    apply preserves_bind; [apply preserves_handle|intros; apply preserves_ret].
  - destruct a; [apply preserves_crash|].
    apply preserves_bind; [apply preserves_handle|intros; apply preserves_ret].
Qed.

End OperationsPreserve.

Lemma preserves_invoke fuel cb a : preserves (invoke fuel cb a).
Proof.
  revert cb a. induction fuel as [|n IH]; intros cb a; simpl.
  - apply preserves_out_of_fuel.
  - apply preserves_invoke_body. exact IH.
Qed.


(** ** Symbolic execution *)

Ltac len_norm :=
  repeat first [rewrite length_insert | rewrite length_app]; cbn [length].

Ltac len_facts :=
  repeat match goal with
         | H : _ !! _ = Some _ |- _ =>
             let H' := fresh "Hlt" in
             pose proof (lookup_lt_Some _ _ _ H) as H'; revert H;
             repeat first [rewrite length_insert in H' | rewrite length_app in H'];
             cbn [length] in H'
         end; intros.

Ltac len_solve := cbn [heap]; len_norm; len_facts; lia.

(** Reduces [h' !! k] for a heap [h'] built by allocations and writes. *)
Ltac lookup_norm :=
  cbn [heap];
  repeat first
    [ rewrite lookup_snoc_at by len_solve
    | rewrite lookup_app_one_l by len_solve
    | rewrite lookup_insert_same by len_solve
    | rewrite list_lookup_insert_ne by len_solve ].

Ltac lookup_solve := lookup_norm; first [reflexivity | eassumption].

(** Brings a heap built by allocations and writes to the form
    [writes (heap m) ++ fresh records]. *)
Ltac heap_norm :=
  repeat first
    [ rewrite insert_app_l by len_solve
    | rewrite insert_snoc_at by len_solve
    | rewrite list_insert_insert_eq ].

(** One step of a computation applied to a machine. *)
Ltac mstep :=
  first
    [ rewrite bind_run
    | rewrite ret_run
    | rewrite invoke_S
    | rewrite length_app
    | rewrite length_insert
    | progress cbn beta iota zeta
    | progress cbn [heap trace state value error thenCallbacks catchCallbacks d ty
                    set_state set_value set_error push_then push_catch clear_queues
                    new_State for_each run_acts run_act invoke_body app length
                    is_void result_type return_type fst snd body label rty Nat.eqb]
    | match goal with
      | H : ?b ?a = (_, _) |- context [?b ?a] => rewrite H
      | H : d ?p = Some _ |- context [d ?p] => rewrite H
      | |- context [deref ?k ?M] => erewrite (deref_run k M) by lookup_solve
      | |- context [decide ?P] =>
          destruct (decide P);
          [try (exfalso; first [congruence|contradiction])
          |try (exfalso; first [congruence|contradiction])]; []
      end
    | progress unfold store, alloc, emit, throw, crash, try_catch, construct,
        catchError, then_F, then_executor, maybeInvoke, m_rejectFn, m_resolveFn,
        m_resolveFn_void, handle, settle_from_result, resolve, reject ].

Ltac mrun := repeat mstep.

(** Exposes the fields of a record, and the result of a callback on [a]. *)
Ltac expose_state s :=
  let st := fresh "st" in let v := fresh "v" in let e := fresh "e" in
  let tc := fresh "tc" in let cc := fresh "cc" in
  destruct s as [st v e tc cc];
  cbn [state value error thenCallbacks catchCallbacks] in *; subst.

Ltac expose_fn f a :=
  let l := fresh "l" in let R := fresh "R" in let b := fresh "b" in
  let acts := fresh "acts" in let out := fresh "out" in let Hb := fresh "Hb" in
  destruct f as [l R b]; cbn [body label rty] in *;
  destruct (b a) as [acts out] eqn:Hb; cbn [fst snd] in *; subst.

Tactic Notation "expose_promise" constr(p) "as" ident(T) :=
  let dp := fresh "dp" in
  destruct p as [T dp]; cbn [d ty] in *; subst.

(** Closes [same_settlement], [fulfilled_with] and [rejected_with] goals on an
    explicit machine. *)
Ltac settlement_solve :=
  cbn [heap];
  first
    [ (do 2 eexists); split; [lookup_solve|]; split; [lookup_solve|];
      cbn [state value error]; repeat split; intros; try reflexivity; try discriminate;
      try congruence
    | eexists; split; [lookup_solve|];
      cbn [state value error]; repeat split; intros; try reflexivity; try discriminate;
      try congruence ].

(** ** The operations on a known record *)

Section Steps.

Variable call : Callable -> Arg -> M (option Val).

(** A drain that returns has cleared both queues. *)
Lemma maybeInvoke_clears r m m' s :
  maybeInvoke call r m = (Ret tt, m') ->
  heap m !! r = Some s -> state s ≠ Pending ->
  exists s', heap m' !! r = Some s' /\ thenCallbacks s' = [] /\ catchCallbacks s' = [].
Proof.
  intros Hrun H Hs. unfold maybeInvoke in Hrun.
  rewrite (bind_ret _ _ _ _ _ (deref_run _ _ _ H)) in Hrun.
  assert (Hend : forall (loop : M unit),
    (loop;; s' ← deref r; store r (clear_queues s')) m = (Ret tt, m') ->
    exists s', heap m' !! r = Some s' /\ thenCallbacks s' = [] /\ catchCallbacks s' = []).
  { intros loop Hl. rewrite bind_run in Hl.
    destruct (loop m) as [[[]|x| |] m1]; try discriminate Hl.
    rewrite bind_run in Hl. unfold deref in Hl.
    destruct (heap m1 !! r) as [s1|] eqn:H1; try discriminate Hl.
    unfold store in Hl. injection Hl as <-.
    exists (clear_queues s1). cbn [heap].
    rewrite list_lookup_insert_eq by (eapply lookup_lt_Some; eauto).
    repeat split. }
  destruct (state s); [exfalso; apply Hs; reflexivity| |]; eapply Hend; exact Hrun.
Qed.

(** [reject] on a pending record without rejection continuations. *)
Lemma m_rejectFn_pending r e m s :
  heap m !! r = Some s -> state s = Pending -> catchCallbacks s = [] ->
  m_rejectFn call (Some r) e m =
  (Ret tt, mkMachine (<[r := mkState Rejected (value s) e [] []]> (heap m)) (trace m)).
Proof.
  intros H Hs Hc. expose_state s. mrun.
  rewrite list_insert_insert_eq. reflexivity.
Qed.

Lemma construct_ret T executor m m' :
  executor (mkPromise T (Some (length (heap m))))
    (mkMachine (heap m ++ [new_State T]) (trace m)) = (Ret tt, m') ->
  construct call T executor m = (Ret (mkPromise T (Some (length (heap m)))), m').
Proof.
  intros He. unfold construct. rewrite bind_run. unfold alloc. cbn beta iota.
  rewrite bind_run. rewrite (try_catch_ret _ _ _ _ _ He). reflexivity.
Qed.

Lemma construct_throw T executor m x m1 m2 :
  executor (mkPromise T (Some (length (heap m))))
    (mkMachine (heap m ++ [new_State T]) (trace m)) = (Throw x, m1) ->
  m_rejectFn call (Some (length (heap m))) (error_of_exn x) m1 = (Ret tt, m2) ->
  construct call T executor m = (Ret (mkPromise T (Some (length (heap m)))), m2).
Proof.
  intros He Hr. unfold construct. rewrite bind_run. unfold alloc. cbn beta iota.
  rewrite bind_run. rewrite (try_catch_throw _ _ _ _ _ He). rewrite Hr. reflexivity.
Qed.

Lemma then_executor_fulfilled hF hR r m s o m' :
  heap m !! r = Some s -> state s = Fulfilled ->
  call hF (AVal (value s)) m = (Ret o, m') ->
  then_executor call hF hR r m = (Ret tt, m').
Proof.
  intros H Hs Hc. unfold then_executor. rewrite (bind_ret _ _ _ _ _ (deref_run _ _ _ H)).
  rewrite Hs. rewrite (bind_ret _ _ _ _ _ Hc). reflexivity.
Qed.

Lemma then_executor_rejected hF hR r m s o m' :
  heap m !! r = Some s -> state s = Rejected ->
  call hR (AErr (error s)) m = (Ret o, m') ->
  then_executor call hF hR r m = (Ret tt, m').
Proof.
  intros H Hs Hc. unfold then_executor. rewrite (bind_ret _ _ _ _ _ (deref_run _ _ _ H)).
  rewrite Hs. rewrite (bind_ret _ _ _ _ _ Hc). reflexivity.
Qed.

(** A handler whose callback returns: its result is then handled, and an
    exception raised while handling it rejects the new promise. *)
Lemma handle_returning callback next cs a m result m1 m2 :
  call callback a m = (Ret result, m1) ->
  settle_from_result call next cs result m1 = (Ret tt, m2) ->
  handle call callback next cs a m = (Ret tt, m2).
Proof.
  intros Hc Hs. unfold handle. apply try_catch_ret.
  rewrite (bind_ret _ _ _ _ _ Hc). exact Hs.
Qed.

End Steps.

(** A user callback that performs no promise operation. *)
Lemma invoke_pure n f a m :
  fst (body f a) = [] ->
  invoke (S n) (User f) a m =
  (match snd (body f a) with inl x => Throw x | inr result => Ret result end,
   mkMachine (heap m) (trace m ++ [Invoked (label f) a])).
Proof.
  intros Hp. expose_fn f a. mrun. destruct out; reflexivity.
Qed.

(** The invocation of a user callback is recorded first. *)
Lemma invoke_user_trace n f a m :
  exists rest,
    trace (snd (invoke (S n) (User f) a m)) = trace m ++ Invoked (label f) a :: rest.
Proof.
  rewrite invoke_S. unfold invoke_body. rewrite bind_run. unfold emit. cbn beta iota.
  match goal with |- context [(?c ≫= ?k) ?M] =>
    assert (Hp : preserves (c ≫= k)) end.
  { apply preserves_bind; [apply preserves_run_acts; apply preserves_invoke|].
    intros _. destruct (snd (body f a)); [apply preserves_throw|apply preserves_ret]. }
  match goal with |- context [(?c ≫= ?k) ?M] =>
    destruct (Hp M) as [_ [rest Hrest]] end.
  exists rest. rewrite Hrest. cbn [trace]. rewrite <- app_assoc. reflexivity.
Qed.

(** [then]'s handler around a plain user callback, on a fresh promise. *)
Lemma handler_of_plain_callback n f U k cs a m sk :
  heap m !! k = Some sk -> state sk = Pending ->
  thenCallbacks sk = [] -> catchCallbacks sk = [] ->
  fst (body f a) = [] -> plain_outcome (snd (body f a)) ->
  handle (invoke (S n)) (User f) (mkPromise U (Some k)) cs a m =
  (Ret tt, mkMachine (<[k := after_callback U (snd (body f a)) sk]> (heap m))
                     (trace m ++ [Invoked (label f) a])).
Proof.
  intros Hk Hs Ht Hc Hp Hout.
  expose_state sk. expose_fn f a.
  destruct out as [x|[[|z|q]|]]; cbn [plain_outcome] in Hout; try contradiction;
    cbn [after_callback]; mrun.
  - rewrite !list_insert_insert_eq. reflexivity.
  - rewrite !list_insert_insert_eq. reflexivity.
  - rewrite !list_insert_insert_eq. reflexivity.
  - destruct (is_void U); mrun; rewrite !list_insert_insert_eq; reflexivity.
Qed.

(** ** Runs that exhaust every budget, and operations on a settled record *)

Lemma bind_out_of_fuel {A B} (c : M A) (k : A -> M B) m :
  fst (c m) = OutOfFuel -> fst ((c ≫= k) m) = OutOfFuel.
Proof.
  intros H. rewrite bind_run. destruct (c m) as [[a|x| |] m']; try discriminate H.
  reflexivity.
Qed.

Lemma try_catch_out_of_fuel {A} (c : M A) h m :
  fst (c m) = OutOfFuel -> fst (try_catch c h m) = OutOfFuel.
Proof.
  intros H. unfold try_catch. destruct (c m) as [[a|x| |] m']; try discriminate H.
  reflexivity.
Qed.

(** The drain of a fulfilled record whose first continuation registers a
    rejection handler on that same record: [catchError] drains again, which
    invokes the continuation again. *)
Lemma drain_reenters (l r : nat) (g : Fn) (next : Promise) (rest : list Callable)
    (fuel : nat) :
  forall m s,
    heap m !! r = Some s -> state s = Fulfilled ->
    thenCallbacks s = HandleFulfilled (User (registers_catch l r g)) next r :: rest ->
    fst (maybeInvoke (invoke fuel) r m) = OutOfFuel.
Proof.
  induction fuel as [fuel IH] using lt_wf_ind. intros m s Hr Hs Ht.
  assert (Hrn : r < length (heap m)) by (eapply lookup_lt_Some; eauto).
  unfold maybeInvoke. rewrite (bind_ret _ _ _ _ _ (deref_run _ _ _ Hr)).
  rewrite Hs, Ht. apply bind_out_of_fuel. cbn [for_each].
  apply bind_out_of_fuel, bind_out_of_fuel.
  destruct fuel as [|[|k]]; [reflexivity| |].
  - rewrite invoke_HandleFulfilled. apply bind_out_of_fuel. reflexivity.
  - rewrite invoke_HandleFulfilled. apply bind_out_of_fuel.
    unfold handle. apply try_catch_out_of_fuel, bind_out_of_fuel.
    rewrite invoke_S. cbn [invoke_body registers_catch body label fst snd].
    rewrite bind_run. unfold emit. cbn beta iota.
    apply bind_out_of_fuel. cbn [run_acts run_act].
    apply bind_out_of_fuel, bind_out_of_fuel.
    unfold catchError. cbn [d]. apply bind_out_of_fuel.
    rewrite bind_run. unfold deref at 1. cbn [heap]. rewrite Hr. cbn beta iota.
    rewrite bind_run. unfold store. cbn beta iota. cbn [heap trace].
    apply (IH k ltac:(lia) _ (push_catch (User g) s)).
    + cbn [heap]. apply list_lookup_insert_eq. exact Hrn.
    + exact Hs.
    + exact Ht.
Qed.


Section SettledRecord.

Variable call : Callable -> Arg -> M (option Val).





End SettledRecord.

Section PendingRuns.

Variable call : Callable -> Arg -> M (option Val).

(** Settling a pending record: the write, then the drain. *)
Lemma m_resolveFn_pending_run i s u M :
  heap M !! i = Some s -> state s = Pending -> plain u ->
  m_resolveFn call (Some i) u M =
  maybeInvoke call i
    (mkMachine (<[i := set_value u (set_state Fulfilled s)]> (heap M)) (trace M)).
Proof.
  intros Hi Hs Hu. unfold m_resolveFn. rewrite (bind_ret _ _ _ _ _ (deref_run _ _ _ Hi)).
  destruct (decide (state s ≠ Pending)) as [Hn|_]; [congruence|].
  destruct u as [|z|q]; [reflexivity|reflexivity|destruct Hu].
Qed.

Lemma m_resolveFn_void_pending_run i s M :
  heap M !! i = Some s -> state s = Pending ->
  m_resolveFn_void call (Some i) M =
  maybeInvoke call i (mkMachine (<[i := set_state Fulfilled s]> (heap M)) (trace M)).
Proof.
  intros Hi Hs. unfold m_resolveFn_void.
  rewrite (bind_ret _ _ _ _ _ (deref_run _ _ _ Hi)).
  destruct (decide (state s ≠ Pending)) as [Hn|_]; [congruence|]. reflexivity.
Qed.

Lemma m_rejectFn_pending_run i s e M :
  heap M !! i = Some s -> state s = Pending ->
  m_rejectFn call (Some i) e M =
  maybeInvoke call i
    (mkMachine (<[i := set_error e (set_state Rejected s)]> (heap M)) (trace M)).
Proof.
  intros Hi Hs. unfold m_rejectFn.
  rewrite (bind_ret _ _ _ _ _ (deref_run _ _ _ Hi)).
  destruct (decide (state s ≠ Pending)) as [Hn|_]; [congruence|]. reflexivity.
Qed.

End PendingRuns.

(** ** C1: a fault raised by a [catchError] callback *)

(** C1 (the code at the failing inputs). A callback [g] that throws is
    registered with [catchError] on a pending promise, which is then rejected.
    The callback is stored as it is and [maybeInvoke] calls it outside any
    [try]: the exception leaves [reject]; the record is [Rejected] by then,
    and [g] stays queued because the two [clear()] calls are skipped. *)
Theorem catchError_fault_escapes_reject (fuel : nat) (m : Machine) (p : Promise)
    (r : nat) (s : State) (g : Fn) (e : PromiseError) (x : Exn) :
  d p = Some r -> heap m !! r = Some s -> state s = Pending ->
  catchCallbacks s = [] ->
  fst (body g (AErr e)) = [] -> snd (body g (AErr e)) = inl x ->
  catchError_then_reject (S fuel) p g e m =
  (Throw x,
   mkMachine (<[r := mkState Rejected (value s) e (thenCallbacks s) [User g]]> (heap m))
             (trace m ++ [Invoked (label g) (AErr e)])).
Proof.
  intros Hd H Hs Hc Hp Hx. unfold catchError_then_reject.
  expose_promise p as T. expose_state s. expose_fn g (AErr e).
  mrun. rewrite !list_insert_insert_eq. reflexivity.
Qed.

(** [Promise<int> p([](auto, auto) {});
     p.catchError([](const PromiseError&) { throw std::runtime_error("boom"); });
     p.reject("x", 1);] *)
Lemma catchError_fault_escapes_reject_witness :
  catchError_then_reject 1 (mkPromise TInt (Some 0)) throwing_handler
    (mkError "x" 1%Z) pending_1 =
  (Throw (StdException "boom"),
   mkMachine [mkState Rejected (VInt 0) (mkError "x" 1%Z) [] [User throwing_handler]]
             [Invoked 1 (AErr (mkError "x" 1%Z))]).
Proof.
  exact (catchError_fault_escapes_reject 0 pending_1 (mkPromise TInt (Some 0)) 0
           (new_State TInt) throwing_handler (mkError "x" 1%Z) (StdException "boom")
           eq_refl eq_refl eq_refl eq_refl eq_refl eq_refl).
Defined.

(** ** C2: the promise without a settlement record *)

(** C2 (the code at the failing input). A default-constructed promise reports
    [Pending], [resolve] and [reject] leave the machine as it is, and
    [then(f)] on either variant and [then(f, g)] on the void variant build a
    promise rejected with "Promise has no state"; but [then(f, g)] on a
    value-bearing promise has no test of [d]: its executor dereferences the
    null pointer, which is undefined behaviour. *)
Theorem then_FG_without_state (call : Callable -> Arg -> M (option Val))
    (m : Machine) (T : Ty) (F G : Callable) (v : Val) (e : PromiseError) :
  let U := result_type (return_type F) in
  let rejected_no_state :=
    (Ret (mkPromise U (Some (length (heap m)))),
     mkMachine (heap m ++ [mkState Rejected (default_value U) no_state [] []]) (trace m)) in
  state_of (mkPromise T None) m = Pending /\
  resolve call (mkPromise T None) v m = (Ret tt, m) /\
  reject call (mkPromise T None) e m = (Ret tt, m) /\
  then_F call (mkPromise T None) F m = rejected_no_state /\
  then_FG call (mkPromise T None) F G m =
    if is_void T then rejected_no_state
    else (Crash, mkMachine (heap m ++ [new_State U]) (trace m)).
Proof.
  assert (Hno : forall U,
    construct call U (fun next => m_rejectFn call (d next) no_state) m =
    (Ret (mkPromise U (Some (length (heap m)))),
     mkMachine (heap m ++ [mkState Rejected (default_value U) no_state [] []]) (trace m))).
  { intros U. mrun. rewrite list_insert_insert_eq, insert_snoc_at by reflexivity.
    reflexivity. }
  cbn zeta. repeat split.
  - unfold resolve. cbn [ty d]. destruct (is_void T); reflexivity.
  - unfold then_F. cbn [d]. apply Hno.
  - unfold then_FG, PromiseVoid_then_FG, Promise_then_FG. cbn [ty d].
    destruct (is_void T); [apply Hno|reflexivity].
Qed.

(** ** C3: settlement happens at most once *)

(** A settled record is unchanged by whatever runs afterwards. *)
Lemma frozen_settled m m' r s :
  frozen m m' -> heap m !! r = Some s -> state s ≠ Pending ->
  exists s', heap m' !! r = Some s' /\
    state s' = state s /\ value s' = value s /\ error s' = error s.
Proof.
  intros [F _] H Hs. destruct (F r s H) as (s' & L & K).
  exists s'. split; [exact L|]. apply K. exact Hs.
Qed.

(** C3. Once a record has left [Pending], a call of [resolve] or [reject] on
    any handle of it returns without changing the machine at all (wherever the
    call comes from, a continuation being drained included, and whatever the
    recursion budget), and no sequence of promise operations, no invocation
    of a queued callable and no construction of a promise changes its status,
    its stored value or its stored error: the status never returns to
    [Pending] nor changes kind. *)
Theorem settlement_is_final (m : Machine) (r : nat) (s : State) :
  heap m !! r = Some s -> state s ≠ Pending ->
  (forall call T v, resolve call (mkPromise T (Some r)) v m = (Ret tt, m)) /\
  (forall call T e, reject call (mkPromise T (Some r)) e m = (Ret tt, m)) /\
  (forall fuel acts, exists s',
      heap (snd (run_acts (invoke fuel) acts m)) !! r = Some s' /\
      state s' = state s /\ value s' = value s /\ error s' = error s) /\
  (forall fuel cb a, exists s',
      heap (snd (invoke fuel cb a m)) !! r = Some s' /\
      state s' = state s /\ value s' = value s /\ error s' = error s) /\
  (forall fuel T executor, exists s',
      heap (snd (Promise_new (invoke fuel) T executor m)) !! r = Some s' /\
      state s' = state s /\ value s' = value s /\ error s' = error s).
Proof.
  intros H Hs. repeat split.
  - intros call T v. unfold resolve. cbn [ty d].
    destruct (is_void T); mrun; reflexivity.
  - intros call T e. mrun. reflexivity.
  - intros fuel acts. eapply frozen_settled; [|exact H|exact Hs].
    apply preserves_run_acts. apply preserves_invoke.
  - intros fuel cb a. eapply frozen_settled; [|exact H|exact Hs].
    apply preserves_invoke.
  - intros fuel T executor. eapply frozen_settled; [|exact H|exact Hs].
    apply preserves_construct; [apply preserves_invoke|].
    intros this. unfold run_executor. apply preserves_bind.
    + apply preserves_run_acts. apply preserves_invoke.
    + intros _. destruct (snd (executor this)); [apply preserves_throw|apply preserves_ret].
Qed.

(** After [resolve(5)], a second [resolve(9)], a [reject] and a [then] leave
    the record fulfilled with 5. *)
Lemma settlement_is_final_witness :
  heap fulfilled_5 !! 0 = Some (mkState Fulfilled (VInt 5) PromiseError_default [] []) /\
  resolve (invoke 3) (mkPromise TInt (Some 0)) (VInt 9) fulfilled_5 = (Ret tt, fulfilled_5) /\
  reject (invoke 3) (mkPromise TInt (Some 0)) (mkError "late" 2%Z) fulfilled_5
    = (Ret tt, fulfilled_5) /\
  exists s',
    heap (snd (run_acts (invoke 3)
                 [AResolve (mkPromise TInt (Some 0)) (VInt 9);
                  AThen (mkPromise TInt (Some 0)) (successor 1) None;
                  AReject (mkPromise TInt (Some 0)) (mkError "late" 2%Z)]
                 fulfilled_5)) !! 0 = Some s' /\
    state s' = Fulfilled /\ value s' = VInt 5 /\ error s' = PromiseError_default.
Proof.
  split; [reflexivity|].
  pose proof (settlement_is_final fulfilled_5 0
                (mkState Fulfilled (VInt 5) PromiseError_default [] [])
                eq_refl ltac:(discriminate)) as (H1 & H2 & H3 & _).
  split; [apply H1|]. split; [apply H2|]. apply H3.
Defined.

(** ** C4: flattening *)

(** The continuation of [p.then] returns [p] itself, already fulfilled with 5:
    the new promise is rejected as a chaining cycle although the returned
    promise is fulfilled. *)
Lemma flattening_fails_for_source :
  source_return_scenario 3 empty_machine =
  (Ret (mkPromise TInt (Some 1)),
   mkMachine [mkState Fulfilled (VInt 5) PromiseError_default [] [];
              mkState Rejected (VInt 0) chaining_cycle [] []]
             [Invoked 1 (AVal (VInt 5))]) /\
  ~ same_settlement (snd (source_return_scenario 3 empty_machine)) 1 0 true.
Proof.
  split; [reflexivity|].
  intros (so & si & Ho & Hi & Hst & _).
  vm_compute in Ho, Hi. injection Ho as <-. injection Hi as <-. discriminate Hst.
Qed.

(** The continuation of [p.then] returns a pending promise on which a
    throwing handler was registered with [catchError] before. When the
    returned promise is rejected, the drain stops at that handler: the
    exception leaves [reject], the forwarding lambda queued behind it is not
    reached, and the new promise stays pending beside the rejected one. *)
Lemma flattening_stops_at_a_throwing_handler :
  let run1 := then_F (invoke 3) (mkPromise TInt (Some 0)) (User (returns_promise 2 1))
                fulfilled_5_guarded in
  let run2 := reject (invoke 3) (mkPromise TInt (Some 1)) (mkError "x" 1%Z) (snd run1) in
  fst run1 = Ret (mkPromise TInt (Some 2)) /\
  fst run2 = Throw (StdException "boom") /\
  state_of (mkPromise TInt (Some 1)) (snd run2) = Rejected /\
  state_of (mkPromise TInt (Some 2)) (snd run2) = Pending.
Proof. repeat split. Qed.

(** A record that has been settled keeps its settlement through whatever runs
    afterwards. *)
Lemma settled_with_frozen m m' k st v e :
  settled_with m k st v e -> frozen m m' -> settled_with m' k st v e.
Proof.
  intros (Hst & s & Hk & <- & <- & <-) Hfr.
  destruct (frozen_settled m m' k s Hfr Hk Hst) as (s' & Hk' & E1 & E2 & E3).
  split; [exact Hst|]. exists s'. auto.
Qed.

Lemma settled_after_bind {A B} (c : M A) (f : A -> M B) m k st v e :
  settled_with (snd (c m)) k st v e -> (forall a, preserves (f a)) ->
  settled_with (snd ((c ≫= f) m)) k st v e.
Proof.
  intros H Hf. rewrite bind_run. destruct (c m) as [[a|x| |] m']; cbn [snd] in *;
    try exact H.
  eapply settled_with_frozen; [exact H|apply Hf].
Qed.

Lemma settled_after_try_catch {A} (c : M A) h m k st v e :
  settled_with (snd (c m)) k st v e -> (forall x, preserves (h x)) ->
  settled_with (snd (try_catch c h m)) k st v e.
Proof.
  intros H Hh. unfold try_catch. destruct (c m) as [[a|x| |] m']; cbn [snd] in *;
    try exact H.
  eapply settled_with_frozen; [exact H|apply Hh].
Qed.

Section Settles.

Variable call : Callable -> Arg -> M (option Val).
Hypothesis call_preserves : forall cb a, preserves (call cb a).

(** The two capabilities, called on a pending record, settle it whatever the
    continuations queued on it do when they are drained. *)
Lemma m_resolveFn_settles k sk v m :
  heap m !! k = Some sk -> state sk = Pending -> plain v ->
  settled_with (snd (m_resolveFn call (Some k) v m)) k Fulfilled v (error sk).
Proof.
  intros Hk Hs Hv. assert (Hkn : k < length (heap m)) by (eapply lookup_lt_Some; eauto).
  unfold m_resolveFn. rewrite (bind_ret _ _ _ _ _ (deref_run _ _ _ Hk)).
  destruct (decide (state sk ≠ Pending)) as [Hn|_]; [congruence|].
  assert (H : settled_with
    (snd ((store k (set_value v (set_state Fulfilled sk));; maybeInvoke call k) m))
    k Fulfilled v (error sk)).
  { rewrite bind_run. unfold store. cbn beta iota.
    eapply settled_with_frozen; [|apply preserves_maybeInvoke; exact call_preserves].
    split; [discriminate|]. eexists. cbn [heap].
    split; [apply list_lookup_insert_eq; exact Hkn|]. repeat split. }
  destruct v as [|z|q]; [exact H|exact H|destruct Hv].
Qed.

Lemma m_resolveFn_void_settles k sk m :
  heap m !! k = Some sk -> state sk = Pending ->
  settled_with (snd (m_resolveFn_void call (Some k) m)) k Fulfilled (value sk) (error sk).
Proof.
  intros Hk Hs. assert (Hkn : k < length (heap m)) by (eapply lookup_lt_Some; eauto).
  unfold m_resolveFn_void. rewrite (bind_ret _ _ _ _ _ (deref_run _ _ _ Hk)).
  destruct (decide (state sk ≠ Pending)) as [Hn|_]; [congruence|].
  rewrite bind_run. unfold store. cbn beta iota.
  eapply settled_with_frozen; [|apply preserves_maybeInvoke; exact call_preserves].
  split; [discriminate|]. eexists. cbn [heap].
  split; [apply list_lookup_insert_eq; exact Hkn|]. repeat split.
Qed.

Lemma m_rejectFn_settles k sk e m :
  heap m !! k = Some sk -> state sk = Pending ->
  settled_with (snd (m_rejectFn call (Some k) e m)) k Rejected (value sk) e.
Proof.
  intros Hk Hs. assert (Hkn : k < length (heap m)) by (eapply lookup_lt_Some; eauto).
  unfold m_rejectFn. rewrite (bind_ret _ _ _ _ _ (deref_run _ _ _ Hk)).
  destruct (decide (state sk ≠ Pending)) as [Hn|_]; [congruence|].
  rewrite bind_run. unfold store. cbn beta iota.
  eapply settled_with_frozen; [|apply preserves_maybeInvoke; exact call_preserves].
  split; [discriminate|]. eexists. cbn [heap].
  split; [apply list_lookup_insert_eq; exact Hkn|]. repeat split.
Qed.

End Settles.

(** Discharges [preserves] side conditions. *)
Ltac pres :=
  repeat first
    [ progress intros
    | apply preserves_ret | apply preserves_crash | apply preserves_throw
    | match goal with H : forall cb a, preserves (_ cb a) |- _ => apply H end
    | apply preserves_invoke | apply preserves_deref
    | apply preserves_update; intros; repeat split
    | apply preserves_m_rejectFn | apply preserves_m_resolveFn
    | apply preserves_m_resolveFn_void | apply preserves_settle_from_result
    | apply preserves_catchError | apply preserves_maybeInvoke
    | apply preserves_for_each
    | apply preserves_bind | apply preserves_try_catch
    | match goal with
      | |- preserves (if ?b then _ else _) => destruct b
      end ].

(** The lambdas that [then]'s handler queues on a returned promise settle the
    new promise [next] when they are invoked, whatever is queued on [next]. *)
Lemma forwarder_settles fuel (next tmp : Promise) (void : bool) (i k : nat)
    (sk : State) (v : Val) (M : Machine) :
  d next = Some k -> heap M !! k = Some sk -> state sk = Pending ->
  (void = false -> plain v) ->
  settled_with
    (snd (invoke (S (S fuel))
            (HandleFulfilled (if void then ResolveVoid next else ResolveValue next) tmp i)
            (AVal v) M))
    k Fulfilled (if void then value sk else v) (error sk).
Proof.
  intros Hnext Hk Hs Hv.
  rewrite invoke_HandleFulfilled. apply settled_after_bind; [|pres].
  unfold handle. apply settled_after_try_catch; [|pres].
  apply settled_after_bind; [|pres].
  rewrite invoke_S. destruct void; cbn [invoke_body]; rewrite Hnext;
    (apply settled_after_bind; [|pres]).
  - apply m_resolveFn_void_settles; [pres|exact Hk|exact Hs].
  - apply m_resolveFn_settles; [pres|exact Hk|exact Hs|auto].
Qed.

Lemma rejecter_settles fuel (next : Promise) (k : nat) (sk : State)
    (e : PromiseError) (M : Machine) :
  d next = Some k -> heap M !! k = Some sk -> state sk = Pending ->
  settled_with (snd (invoke (S fuel) (RejectWith next) (AErr e) M))
    k Rejected (value sk) e.
Proof.
  intros Hnext Hk Hs. rewrite invoke_S. cbn [invoke_body]. rewrite Hnext.
  apply settled_after_bind; [|pres].
  apply m_rejectFn_settles; [pres|exact Hk|exact Hs].
Qed.

(** The drain of a record whose queue ends with a forwarding lambda of
    [next]: when the drain gets there with [next] still pending, [next] takes
    the settlement of the record. *)
Lemma for_each_forwarder fuel (next tmp : Promise) (void : bool) (i k n : nat)
    (sk : State) (v : Val) (M : Machine) :
  d next = Some k -> heap M !! k = Some sk -> state sk = Pending ->
  (void = false -> plain v) ->
  settled_with
    (snd (for_each (invoke (S (S fuel))) i thenCallbacks n
            [HandleFulfilled (if void then ResolveVoid next else ResolveValue next) tmp i]
            (AVal v) M))
    k Fulfilled (if void then value sk else v) (error sk).
Proof.
  intros Hnext Hk Hs Hv. cbn [for_each].
  apply settled_after_bind; [|pres]. apply settled_after_bind; [|pres].
  apply forwarder_settles; assumption.
Qed.

Lemma for_each_rejecter fuel (next : Promise) (i k n : nat) (sk : State)
    (e : PromiseError) (M : Machine) :
  d next = Some k -> heap M !! k = Some sk -> state sk = Pending ->
  settled_with
    (snd (for_each (invoke (S fuel)) i catchCallbacks n [RejectWith next] (AErr e) M))
    k Rejected (value sk) e.
Proof.
  intros Hnext Hk Hs. cbn [for_each].
  apply settled_after_bind; [|pres]. apply settled_after_bind; [|pres].
  apply rejecter_settles; assumption.
Qed.

Lemma handle_settled call F next r a m m1 res k st v e :
  (forall cb x, preserves (call cb x)) ->
  call F a m = (Ret res, m1) ->
  settled_with (snd (settle_from_result call next r res m1)) k st v e ->
  settled_with (snd (handle call F next r a m)) k st v e.
Proof.
  intros Hcall Hrun H. unfold handle. apply settled_after_try_catch; [|pres].
  rewrite (bind_ret _ _ _ _ _ Hrun). exact H.
Qed.

Lemma handle_frozen call F next r a m m1 res :
  (forall cb x, preserves (call cb x)) ->
  call F a m = (Ret res, m1) ->
  frozen m1 (snd (handle call F next r a m)).
Proof.
  intros Hcall Hrun. unfold handle, try_catch. rewrite (bind_ret _ _ _ _ _ Hrun).
  pose proof (preserves_settle_from_result call Hcall next r res m1) as H1.
  destruct (settle_from_result call next r res m1) as [[[]|x| |] m2]; cbn [snd] in *;
    try exact H1.
  eapply frozen_trans; [exact H1|]. apply preserves_m_rejectFn. exact Hcall.
Qed.

Lemma settled_fulfilled m k v e wv u :
  settled_with m k Fulfilled v e -> (wv = true -> v = u) -> fulfilled_with m k wv u.
Proof.
  intros (_ & s & Hk & Hs & Hv & _) Hu. exists s.
  split; [exact Hk|]. split; [exact Hs|]. intros Hw. rewrite Hv. auto.
Qed.

Lemma settled_rejected m k v e :
  settled_with m k Rejected v e -> rejected_with m k e.
Proof. intros (_ & s & Hk & Hs & _ & He). exists s. auto. Qed.

Lemma same_fulfilled m k i vk ek vi ei wv :
  settled_with m k Fulfilled vk ek -> settled_with m i Fulfilled vi ei ->
  (wv = true -> vk = vi) -> same_settlement m k i wv.
Proof.
  intros (_ & so & Hk & Hso & Hvo & Heo) (_ & si & Hi & Hsi & Hvi & Hei) Hv.
  exists so, si. split; [exact Hk|]. split; [exact Hi|].
  split; [congruence|]. split; [congruence|].
  intros _ Hw. rewrite Hvo, Hvi. auto.
Qed.

Lemma same_rejected m k i vk vi e wv :
  settled_with m k Rejected vk e -> settled_with m i Rejected vi e ->
  same_settlement m k i wv.
Proof.
  intros (_ & so & Hk & Hso & Hvo & Heo) (_ & si & Hi & Hsi & Hvi & Hei).
  exists so, si. split; [exact Hk|]. split; [exact Hi|].
  split; [congruence|]. split; [congruence|]. congruence.
Qed.

(** The promise-return branch of the handler when the returned promise is
    already fulfilled: [result.then] invokes the forwarding lambda at once. *)
Lemma flatten_fulfilled fuel (m1 : Machine) (next result : Promise) (k r i : nat)
    (sk si : State) :
  d next = Some k -> heap m1 !! k = Some sk -> state sk = Pending ->
  d result = Some i -> i ≠ r -> heap m1 !! i = Some si -> state si = Fulfilled ->
  (is_void (ty result) = false -> plain (value si)) ->
  settled_with
    (snd (settle_from_result (invoke (S (S fuel))) next r (Some (VPromise result)) m1))
    k Fulfilled (if is_void (ty result) then value sk else value si) (error sk).
Proof.
  intros Hnext Hk Hsk Hres Hir Hi Hsi Hplain.
  assert (Hkn : k < length (heap m1)) by (eapply lookup_lt_Some; eauto).
  assert (Hin : i < length (heap m1)) by (eapply lookup_lt_Some; eauto).
  unfold settle_from_result. rewrite Hres.
  destruct (decide (Some i = Some r)) as [E|_]; [congruence|].
  apply settled_after_bind; [|pres].
  unfold then_F. rewrite Hres. unfold construct. rewrite bind_run.
  unfold alloc. cbn beta iota. apply settled_after_bind; [|pres].
  apply settled_after_try_catch; [|pres].
  unfold then_executor. rewrite bind_run. unfold deref at 1. cbn [heap].
  rewrite lookup_app_one_l by exact Hin. rewrite Hi. cbn beta iota. rewrite Hsi.
  apply settled_after_bind; [|pres].
  apply forwarder_settles; [exact Hnext| |exact Hsk|exact Hplain].
  cbn [heap]. rewrite lookup_app_one_l by exact Hkn. exact Hk.
Qed.

(** The same branch when the returned promise is already rejected and has no
    rejection handler queued: [result.catchError] drains the forwarding lambda
    at once. *)
Lemma flatten_rejected fuel (m1 : Machine) (next result : Promise) (k r i : nat)
    (sk si : State) :
  d next = Some k -> heap m1 !! k = Some sk -> state sk = Pending ->
  d result = Some i -> i ≠ r -> heap m1 !! i = Some si -> state si = Rejected ->
  catchCallbacks si = [] ->
  settled_with
    (snd (settle_from_result (invoke (S (S fuel))) next r (Some (VPromise result)) m1))
    k Rejected (value sk) (error si).
Proof.
  intros Hnext Hk Hsk Hres Hir Hi Hsi Hic.
  assert (Hkn : k < length (heap m1)) by (eapply lookup_lt_Some; eauto).
  assert (Hin : i < length (heap m1)) by (eapply lookup_lt_Some; eauto).
  assert (Hki : k ≠ i) by (intros ->; congruence).
  unfold settle_from_result. rewrite Hres.
  destruct (decide (Some i = Some r)) as [E|_]; [congruence|].
  set (FW := if is_void (ty result) then ResolveVoid next else ResolveValue next).
  assert (Hthen : then_F (invoke (S (S fuel))) result FW m1 =
    (Ret (mkPromise TVoid (Some (length (heap m1)))),
     mkMachine (heap m1 ++ [mkState Rejected VUnit (error si) [] []]) (trace m1))).
  { assert (HU : result_type (return_type FW) = TVoid)
      by (subst FW; destruct (is_void (ty result)); reflexivity).
    clearbody FW. clear Hk Hsk Hkn Hki. expose_promise result as Tr. expose_state si.
    unfold then_F. cbn [d]. rewrite HU.
    mrun. rewrite list_insert_insert_eq, insert_snoc_at by reflexivity. reflexivity. }
  rewrite (bind_ret _ _ _ _ _ Hthen). apply settled_after_bind; [|pres].
  unfold catchError. rewrite Hres. apply settled_after_bind; [|pres].
  rewrite bind_run. unfold deref at 1. cbn [heap].
  rewrite lookup_app_one_l by exact Hin. rewrite Hi. cbn beta iota.
  rewrite bind_run. unfold store. cbn beta iota. cbn [heap trace].
  unfold maybeInvoke. rewrite bind_run. unfold deref at 1. cbn [heap].
  rewrite list_lookup_insert_eq by (rewrite length_app; cbn [length]; lia).
  cbn beta iota. cbn [push_catch state catchCallbacks error]. rewrite Hsi, Hic.
  cbn [app]. apply settled_after_bind; [|pres].
  apply for_each_rejecter; [exact Hnext| |exact Hsk].
  cbn [heap]. rewrite list_lookup_insert_ne by (intros E; apply Hki; auto).
  rewrite lookup_app_one_l by exact Hkn. exact Hk.
Qed.

(** The same branch when the returned promise is pending and has nothing
    queued: the two forwarding lambdas are queued on it, after the handlers of
    the temporary promise that [result.then] produces. *)
Lemma flatten_pending fuel (m1 : Machine) (next result : Promise) (r i : nat)
    (si : State) :
  d result = Some i -> i ≠ r -> heap m1 !! i = Some si -> state si = Pending ->
  thenCallbacks si = [] -> catchCallbacks si = [] ->
  let tmp := mkPromise TVoid (Some (length (heap m1))) in
  let FW := if is_void (ty result) then ResolveVoid next else ResolveValue next in
  settle_from_result (invoke (S (S fuel))) next r (Some (VPromise result)) m1 =
  (Ret tt,
   mkMachine (<[i := mkState Pending (value si) (error si)
                       [HandleFulfilled FW tmp i] [RejectWith tmp; RejectWith next]]>
                (heap m1) ++ [new_State TVoid])
             (trace m1)).
Proof.
  intros Hres Hir Hi Hsi Hit Hic tmp FW.
  assert (Hin : i < length (heap m1)) by (eapply lookup_lt_Some; eauto).
  assert (HU : result_type (return_type FW) = TVoid)
    by (subst FW; destruct (is_void (ty result)); reflexivity).
  unfold settle_from_result. rewrite Hres.
  destruct (decide (Some i = Some r)) as [E|_]; [congruence|].
  fold FW. clearbody FW. subst tmp.
  expose_promise result as Tr. expose_state si.
  unfold then_F. cbn [d]. rewrite HU. mrun. heap_norm. reflexivity.
Qed.


(** The drain of a fulfilled record whose only continuation is the forwarding
    lambda of [next]. *)
Lemma drain_forwarder fuel (next tmp : Promise) (void : bool) (i k : nat)
    (s sk : State) (M : Machine) :
  heap M !! i = Some s -> state s = Fulfilled ->
  thenCallbacks s =
    [HandleFulfilled (if void then ResolveVoid next else ResolveValue next) tmp i] ->
  d next = Some k -> heap M !! k = Some sk -> state sk = Pending ->
  (void = false -> plain (value s)) ->
  settled_with (snd (maybeInvoke (invoke (S (S fuel))) i M))
    k Fulfilled (if void then value sk else value s) (error sk).
Proof.
  intros Hi Hs Ht Hnext Hk Hsk Hplain.
  unfold maybeInvoke. rewrite (bind_ret _ _ _ _ _ (deref_run _ _ _ Hi)).
  rewrite Hs, Ht. apply settled_after_bind; [|pres].
  apply for_each_forwarder; assumption.
Qed.

(** The drain of a rejected record whose rejection handlers are the one of
    the temporary promise, still fresh, and the forwarding lambda of [next]. *)
Lemma drain_rejecters fuel (next tmp : Promise) (i k t : nat) (s sk st : State)
    (M : Machine) :
  heap M !! i = Some s -> state s = Rejected ->
  catchCallbacks s = [RejectWith tmp; RejectWith next] ->
  d tmp = Some t -> heap M !! t = Some st -> state st = Pending ->
  catchCallbacks st = [] -> t ≠ i -> t ≠ k ->
  d next = Some k -> heap M !! k = Some sk -> state sk = Pending ->
  settled_with (snd (maybeInvoke (invoke (S (S fuel))) i M))
    k Rejected (value sk) (error s).
Proof.
  intros Hi Hs Hc Htmp Ht Hst Hct Hti Htk Hnext Hk Hsk.
  assert (Htn : t < length (heap M)) by (eapply lookup_lt_Some; eauto).
  unfold maybeInvoke. rewrite (bind_ret _ _ _ _ _ (deref_run _ _ _ Hi)).
  rewrite Hs, Hc. apply settled_after_bind; [|pres].
  cbn [for_each length].
  assert (H1 : invoke (S (S fuel)) (RejectWith tmp) (AErr (error s)) M =
    (Ret None,
     mkMachine (<[t := mkState Rejected (value st) (error s) [] []]> (heap M)) (trace M))).
  { rewrite invoke_S. cbn [invoke_body]. rewrite Htmp.
    rewrite (bind_ret _ _ _ _ _
               (m_rejectFn_pending (invoke (S fuel)) t (error s) M st Ht Hst Hct)).
    reflexivity. }
  rewrite bind_run, (bind_ret _ _ _ _ _ H1), ret_run. cbn beta iota.
  rewrite bind_run. unfold deref at 1. cbn [heap].
  rewrite list_lookup_insert_ne by exact Hti. rewrite Hi. cbn beta iota.
  rewrite Hc. cbn [length Nat.eqb].
  apply for_each_rejecter; [exact Hnext| |exact Hsk].
  cbn [heap]. rewrite list_lookup_insert_ne by exact Htk. exact Hk.
Qed.

(** With nothing queued on the new promise either, the branch returns. *)
Lemma flatten_returns fuel (m1 : Machine) (next result : Promise) (k r i : nat)
    (sk si : State) :
  d next = Some k -> heap m1 !! k = Some sk -> state sk = Pending ->
  thenCallbacks sk = [] -> catchCallbacks sk = [] ->
  d result = Some i -> i ≠ r -> heap m1 !! i = Some si ->
  thenCallbacks si = [] -> catchCallbacks si = [] -> plain (value si) ->
  exists m2,
    settle_from_result (invoke (S (S fuel))) next r (Some (VPromise result)) m1 =
    (Ret tt, m2).
Proof.
  intros Hnext Hk Hsk Hkt Hkc Hres Hir Hi Hit Hic Hplain.
  destruct (state si) eqn:Hsi.
  - eexists. apply flatten_pending; eassumption.
  - assert (Hki : k ≠ i) by (intros ->; congruence).
    unfold settle_from_result. rewrite Hres.
    destruct (decide (Some i = Some r)) as [E|_]; [congruence|].
    expose_promise next as Tn. expose_promise result as Tr.
    expose_state sk. expose_state si.
    destruct (is_void Tr) eqn:HT; [|destruct v0 as [|z|q]; [| |destruct Hplain]];
      eexists; mrun; rewrite ?HT; mrun; reflexivity.
  - assert (Hki : k ≠ i) by (intros ->; congruence).
    unfold settle_from_result. rewrite Hres.
    destruct (decide (Some i = Some r)) as [E|_]; [congruence|].
    expose_promise next as Tn. expose_promise result as Tr.
    expose_state sk. expose_state si.
    destruct (is_void Tr) eqn:HT; eexists; mrun; rewrite ?HT; mrun; reflexivity.
Qed.

(** C4 (amended). A continuation run by a handler of [then] has returned a
    promise [result], on the record [i], and the promise [next] that [then]
    produced is still pending. (1) When [i] is the record [then] was called
    on, [next] is rejected with the chaining-cycle error. (2) Otherwise, when
    nothing is queued on [i]: at the end of the handler [next] has the
    settlement of [i] (the same status, the same error when rejected, the same
    value when fulfilled); with nothing queued on [next] either the handler
    returns; and when [i] is still pending the handler returns, [next] stays
    pending, and the later [resolve(u)] ([reject(e)]) of the returned promise
    fulfils [next] with [u] (rejects it with [e]). The continuation may be any
    callable and may have done anything before it returned, and [next] may
    have continuations of its own, which are drained when it is settled. *)
Theorem flattening (fuel : nat) (m m1 : Machine) (F : Callable) (a : Arg)
    (next result : Promise) (k r i : nat) (sk si : State) :
  let call := invoke (S (S fuel)) in
  let wv := negb (is_void (ty result)) in
  let m2 := snd (handle call F next r a m) in
  call F a m = (Ret (Some (VPromise result)), m1) ->
  d next = Some k -> heap m1 !! k = Some sk -> state sk = Pending ->
  d result = Some i -> heap m1 !! i = Some si ->
  (i = r -> rejected_with m2 k chaining_cycle) /\
  (i ≠ r -> thenCallbacks si = [] -> catchCallbacks si = [] -> plain (value si) ->
     same_settlement m2 k i wv /\
     (thenCallbacks sk = [] -> catchCallbacks sk = [] ->
        fst (handle call F next r a m) = Ret tt) /\
     (state si = Pending ->
        fst (handle call F next r a m) = Ret tt /\
        (forall u, plain u ->
           let m3 := snd (resolve call result u m2) in
           fulfilled_with m3 k wv u /\ same_settlement m3 k i wv) /\
        (forall e,
           let m3 := snd (reject call result e m2) in
           rejected_with m3 k e /\ same_settlement m3 k i wv))).
Proof.
  intros call wv m2 Hcall Hnext Hk Hsk Hres Hi.
  assert (Hpres : forall cb x, preserves (call cb x)) by (intros; apply preserves_invoke).
  assert (Hkn : k < length (heap m1)) by (eapply lookup_lt_Some; eauto).
  assert (Hin : i < length (heap m1)) by (eapply lookup_lt_Some; eauto).
  split.
  { (* the returned promise is the one [then] was called on *)
    intros ->. eapply settled_rejected. subst m2.
    eapply handle_settled; [exact Hpres|exact Hcall|].
    unfold settle_from_result. rewrite Hres, Hnext.
    destruct (decide (Some r = Some r)) as [_|Hn]; [|contradiction].
    apply m_rejectFn_settles; [exact Hpres|exact Hk|exact Hsk]. }
  intros Hir Hit Hic Hplain.
  assert (Hfr : frozen m1 m2) by (eapply handle_frozen; eassumption).
  assert (Hret : thenCallbacks sk = [] -> catchCallbacks sk = [] ->
                 fst (handle call F next r a m) = Ret tt).
  { intros Hkt Hkc.
    destruct (flatten_returns fuel m1 next result k r i sk si) as [m2' H2]; try assumption.
    rewrite (handle_returning call F next r a m _ m1 m2' Hcall H2). reflexivity. }
  destruct (state si) eqn:Hsi.
  - (* the returned promise is pending *)
    pose proof (flatten_pending fuel m1 next result r i si Hres Hir Hi Hsi Hit Hic) as Hset.
    cbv zeta in Hset.
    pose proof (handle_returning call F next r a m _ m1 _ Hcall Hset) as Hrun.
    set (tmp := mkPromise TVoid (Some (length (heap m1)))) in *.
    set (FW := if is_void (ty result) then ResolveVoid next else ResolveValue next) in *.
    set (si' := mkState Pending (value si) (error si)
                  [HandleFulfilled FW tmp i] [RejectWith tmp; RejectWith next]) in *.
    assert (Hm2 : m2 = mkMachine (<[i := si']> (heap m1) ++ [new_State TVoid]) (trace m1))
      by (subst m2; rewrite Hrun; reflexivity).
    assert (Hi2 : heap m2 !! i = Some si').
    { rewrite Hm2. cbn [heap]. rewrite lookup_app_one_l by (rewrite length_insert; exact Hin).
      apply list_lookup_insert_eq. exact Hin. }
    assert (Hk2 : k ≠ i -> heap m2 !! k = Some sk).
    { intros Hki. rewrite Hm2. cbn [heap].
      rewrite lookup_app_one_l by (rewrite length_insert; exact Hkn).
      rewrite list_lookup_insert_ne by (intros E; apply Hki; auto). exact Hk. }
    assert (Ht2 : heap m2 !! length (heap m1) = Some (new_State TVoid)).
    { rewrite Hm2. cbn [heap]. apply lookup_snoc_at. rewrite length_insert. reflexivity. }
    split; [|split; [exact Hret|]].
    { destruct (decide (k = i)) as [->|Hki].
      - exists si', si'. repeat split; auto.
      - exists sk, si'. split; [auto|]. split; [exact Hi2|].
        split; [rewrite Hsk; reflexivity|]. split; intros; discriminate. }
    intros _. split; [rewrite Hrun; reflexivity|]. split.
    + (* the returned promise is fulfilled later *)
      intros u Hu m3. subst m3. unfold resolve. rewrite Hres.
      set (vi := if is_void (ty result) then value si else u).
      assert (Hrun3 :
        (if is_void (ty result) then m_resolveFn_void call (Some i)
         else m_resolveFn call (Some i) u) m2 =
        maybeInvoke call i
          (mkMachine (<[i := mkState Fulfilled vi (error si)
                               [HandleFulfilled FW tmp i]
                               [RejectWith tmp; RejectWith next]]> (heap m2)) (trace m2))).
      { subst vi. destruct (is_void (ty result)).
        - rewrite (m_resolveFn_void_pending_run call i si' m2 Hi2 eq_refl). reflexivity.
        - rewrite (m_resolveFn_pending_run call i si' u m2 Hi2 eq_refl Hu). reflexivity. }
      assert (Hin2 : i < length (heap m2)) by (eapply lookup_lt_Some; eauto).
      match type of Hrun3 with _ = maybeInvoke _ _ ?M => set (M3 := M) in * end.
      assert (Hi3 : settled_with (snd (maybeInvoke call i M3)) i Fulfilled vi (error si)).
      { eapply settled_with_frozen; [|apply preserves_maybeInvoke; exact Hpres].
        split; [discriminate|].
        exists (mkState Fulfilled vi (error si) [HandleFulfilled FW tmp i]
                  [RejectWith tmp; RejectWith next]).
        split; [|repeat split].
        subst M3. cbn [heap]. apply list_lookup_insert_eq. exact Hin2. }
      assert (Hk3 : settled_with (snd (maybeInvoke call i M3)) k Fulfilled
                      (if is_void (ty result) then value sk else u) (error sk)).
      { destruct (decide (k = i)) as [->|Hki].
        - replace sk with si by congruence. exact Hi3.
        - replace u with (if is_void (ty result) then u else vi) at 1
            by (subst vi; destruct (is_void (ty result)); reflexivity).
          assert (Hd := drain_forwarder fuel next tmp (is_void (ty result)) i k
                    (mkState Fulfilled vi (error si) [HandleFulfilled FW tmp i]
                       [RejectWith tmp; RejectWith next]) sk M3).
          cbn [state value thenCallbacks] in Hd.
          replace (if is_void (ty result) then value sk
                   else if is_void (ty result) then u else vi)
            with (if is_void (ty result) then value sk else vi)
            by (destruct (is_void (ty result)); reflexivity).
          apply Hd; try assumption; try reflexivity.
          + subst M3. cbn [heap]. apply list_lookup_insert_eq. exact Hin2.
          + subst M3. cbn [heap].
            rewrite list_lookup_insert_ne by (intros E; apply Hki; auto). auto.
          + intros Hv. subst vi. rewrite Hv. exact Hu. }
      rewrite Hrun3. split.
      * eapply settled_fulfilled; [exact Hk3|].
        subst wv. destruct (is_void (ty result)); [discriminate|reflexivity].
      * eapply same_fulfilled; [exact Hk3|exact Hi3|].
        subst wv vi. destruct (is_void (ty result)); [discriminate|reflexivity].
    + (* the returned promise is rejected later *)
      intros e m3. subst m3. unfold reject. rewrite Hres.
      rewrite (m_rejectFn_pending_run call i si' e m2 Hi2 eq_refl).
      assert (Hin2 : i < length (heap m2)) by (eapply lookup_lt_Some; eauto).
      match goal with |- context [maybeInvoke _ _ ?M] => set (M3 := M) in * end.
      assert (Hi3 : settled_with (snd (maybeInvoke call i M3)) i Rejected (value si) e).
      { eapply settled_with_frozen; [|apply preserves_maybeInvoke; exact Hpres].
        split; [discriminate|]. exists (set_error e (set_state Rejected si')).
        split; [|repeat split].
        subst M3. cbn [heap]. apply list_lookup_insert_eq. exact Hin2. }
      assert (Hk3 : settled_with (snd (maybeInvoke call i M3)) k Rejected (value sk) e).
      { destruct (decide (k = i)) as [->|Hki].
        - replace sk with si by congruence. exact Hi3.
        - apply (drain_rejecters fuel next tmp i k (length (heap m1))
                   (set_error e (set_state Rejected si')) sk (new_State TVoid) M3);
            try assumption; try reflexivity; try lia.
          + subst M3. cbn [heap]. apply list_lookup_insert_eq. exact Hin2.
          + subst M3. cbn [heap]. rewrite list_lookup_insert_ne by lia. exact Ht2.
          + subst M3. cbn [heap].
            rewrite list_lookup_insert_ne by (intros E; apply Hki; auto). auto. }
      split; [eapply settled_rejected; exact Hk3|].
      eapply same_rejected; [exact Hk3|exact Hi3].
  - (* the returned promise is fulfilled already *)
    split; [|split; [exact Hret|intros; discriminate]].
    assert (Hk2 : settled_with m2 k Fulfilled
                    (if is_void (ty result) then value sk else value si) (error sk)).
    { subst m2. eapply handle_settled; [exact Hpres|exact Hcall|].
      apply (flatten_fulfilled fuel m1 next result k r i sk si); auto. }
    assert (Hi2 : settled_with m2 i Fulfilled (value si) (error si)).
    { eapply settled_with_frozen; [|exact Hfr].
      split; [discriminate|]. exists si. auto. }
    eapply same_fulfilled; [exact Hk2|exact Hi2|].
    subst wv. destruct (is_void (ty result)); [discriminate|reflexivity].
  - (* the returned promise is rejected already *)
    split; [|split; [exact Hret|intros; discriminate]].
    assert (Hk2 : settled_with m2 k Rejected (value sk) (error si)).
    { subst m2. eapply handle_settled; [exact Hpres|exact Hcall|].
      apply (flatten_rejected fuel m1 next result k r i sk si); auto. }
    assert (Hi2 : settled_with m2 i Rejected (value si) (error si)).
    { eapply settled_with_frozen; [|exact Hfr].
      split; [discriminate|]. exists si. auto. }
    eapply same_rejected; [exact Hk2|exact Hi2].
Qed.

(** [p] is fulfilled with 5 and the handler of [p.then(f)] runs an [f] that
    returns a promise fulfilled with 9: the new promise, on the third record,
    is fulfilled with 9, and the handler returns. *)
Lemma flattening_witness :
  let m := mkMachine (heap fulfilled_5_9 ++ [new_State TInt]) [] in
  let run := handle (invoke 2) (User (returns_promise 1 1)) (mkPromise TInt (Some 2)) 0
               (AVal (VInt 5)) m in
  same_settlement (snd run) 2 1 true /\ fst run = Ret tt.
Proof.
  pose proof (proj2 (flattening 0
                (mkMachine (heap fulfilled_5_9 ++ [new_State TInt]) [])
                (mkMachine (heap fulfilled_5_9 ++ [new_State TInt])
                   [Invoked 1 (AVal (VInt 5))])
                (User (returns_promise 1 1)) (AVal (VInt 5))
                (mkPromise TInt (Some 2)) (mkPromise TInt (Some 1)) 2 0 1
                (new_State TInt) (mkState Fulfilled (VInt 9) PromiseError_default [] [])
                eq_refl eq_refl eq_refl eq_refl eq_refl eq_refl)
              ltac:(discriminate) eq_refl eq_refl I) as (H1 & H2 & _).
  split; [exact H1|exact (H2 eq_refl eq_refl)].
Defined.
(** ** C5: chaining cycles *)

(** The continuation returns the promise that [then] produced. The handler
    compares the returned record with the record [then] was called on, not
    with the record it settles: no cycle is reported and the new promise
    stays pending, waiting for itself. *)
Lemma self_return_stays_pending :
  fst (self_return_scenario 5 empty_machine) = Ret (mkPromise TInt (Some 1)) /\
  state_of (mkPromise TInt (Some 1)) (snd (self_return_scenario 5 empty_machine))
    = Pending /\
  state_of (mkPromise TInt (Some 1)) (snd (self_return_scenario 5 empty_machine))
    ≠ Rejected /\
  trace (snd (self_return_scenario 5 empty_machine)) = [Invoked 1 (AVal (VInt 7))].
Proof. repeat split. discriminate. Qed.

(** C5 (the code at the failing inputs). [q = p.then(f)] on a pending promise
    without continuations, with an [f] that makes no promise call and returns
    a promise on the record of [q] itself: the promise being settled. Then
    [p.resolve(v)] returns, [f] has run once, and [q] is not rejected: the
    handler has compared the returned record with the record of [p], found
    them different, and queued the forwarding lambdas on the record of [q],
    which stays [Pending] with a temporary promise waiting beside it. *)
Theorem self_cycle_is_not_detected (fuel : nat) (m : Machine) (p : Promise) (r : nat)
    (s : State) (f : Fn) (result : Promise) (v : Val) :
  let av := AVal (if is_void (ty p) then value s else v) in
  let U := result_type (rty f) in
  let n := length (heap m) in
  let q := mkPromise U (Some n) in
  let tmp := mkPromise TVoid (Some (n + 1)) in
  let forward := if is_void (ty result) then ResolveVoid q else ResolveValue q in
  let m' :=
    mkMachine
      (<[r := mkState Fulfilled (if is_void (ty p) then value s else v) (error s) [] []]>
         (heap m)
       ++ [mkState Pending (default_value U) PromiseError_default
             [HandleFulfilled forward tmp n] [RejectWith tmp; RejectWith q];
           new_State TVoid])
      (trace m ++ [Invoked (label f) av]) in
  d p = Some r -> heap m !! r = Some s -> state s = Pending ->
  thenCallbacks s = [] -> catchCallbacks s = [] -> plain v ->
  fst (body f av) = [] -> snd (body f av) = inr (Some (VPromise result)) ->
  d result = Some n ->
  (q' ← then_F (invoke (S (S fuel))) p (User f);
   resolve (invoke (S (S fuel))) p v;; mret q') m = (Ret q, m') /\
  isPending q m' = true /\ isRejected q m' = false.
Proof.
  intros av U n q tmp forward m' Hd Hr Hs Ht Hc Hv Hp Ho Hres.
  subst av n q tmp forward m'.
  assert (Hrn : r < length (heap m)) by (eapply lookup_lt_Some; eauto).
  split.
  - expose_promise p as T. expose_promise result as Tr. expose_state s.
    unfold then_F at 1. cbn [d return_type]. fold U.
    destruct (is_void T) eqn:HT; [|destruct v as [|z|q]; [| |destruct Hv]];
      match type of Hp with fst (body f ?a) = _ => expose_fn f a end;
      unfold resolve; cbn [ty d]; rewrite ?HT;
      repeat first [rewrite decide_False by (intros E; injection E; lia) | mstep];
      (destruct (is_void Tr); mrun; heap_norm; rewrite <- !app_assoc; reflexivity).
  - unfold isPending, isRejected, state_of. cbn [d heap].
    rewrite lookup_app_r by (rewrite length_insert; reflexivity).
    rewrite length_insert, Nat.sub_diag. split; reflexivity.
Qed.

(** [Promise<int> p([](auto, auto) {}); Promise<int> q;
     q = p.then([&q](const int&) { return q; }); p.resolve(7);] *)
Lemma self_cycle_is_not_detected_witness :
  (q' ← then_F (invoke 2) (mkPromise TInt (Some 0)) (User (returns_promise 1 1));
   resolve (invoke 2) (mkPromise TInt (Some 0)) (VInt 7);; mret q') pending_1 =
  (Ret (mkPromise TInt (Some 1)),
   mkMachine
     [mkState Fulfilled (VInt 7) PromiseError_default [] [];
      mkState Pending (VInt 0) PromiseError_default
        [HandleFulfilled (ResolveValue (mkPromise TInt (Some 1)))
           (mkPromise TVoid (Some 2)) 1]
        [RejectWith (mkPromise TVoid (Some 2)); RejectWith (mkPromise TInt (Some 1))];
      new_State TVoid]
     [Invoked 1 (AVal (VInt 7))]).
Proof.
  exact (proj1 (self_cycle_is_not_detected 0 pending_1 (mkPromise TInt (Some 0)) 0
                  (new_State TInt) (returns_promise 1 1) (mkPromise TInt (Some 1))
                  (VInt 7) eq_refl eq_refl eq_refl eq_refl eq_refl I
                  eq_refl eq_refl eq_refl)).
Defined.

(** ** C6: continuations run in registration order *)




(** ** C7: a fault raised by the executor *)

(** The executor resolves its promise and then throws: the promise is
    fulfilled, and the fault is dropped by the [Pending] test of
    [m_rejectFn]. *)
Lemma executor_fault_after_resolve :
  Promise_new (invoke 1) TInt resolve_then_throw empty_machine =
  (Ret (mkPromise TInt (Some 0)),
   mkMachine [mkState Fulfilled (VInt 5) PromiseError_default [] []] []) /\
  state_of (mkPromise TInt (Some 0))
    (snd (Promise_new (invoke 1) TInt resolve_then_throw empty_machine)) ≠ Rejected.
Proof. split; [reflexivity|discriminate]. Qed.

(** C7 (amended). When the executor raises a fault while its promise is still
    pending (and has no rejection continuation yet), the constructor returns
    and the promise is rejected with code -1 and with the message of the
    fault when it is a standard exception, "Unknown exception" otherwise. *)
Theorem executor_fault_rejects (fuel : nat) (T : Ty) (executor : Executor)
    (m m1 : Machine) (x : Exn) (s1 : State) :
  let n := length (heap m) in
  let this := mkPromise T (Some n) in
  run_executor (invoke fuel) executor this
    (mkMachine (heap m ++ [new_State T]) (trace m)) = (Throw x, m1) ->
  heap m1 !! n = Some s1 -> state s1 = Pending -> catchCallbacks s1 = [] ->
  Promise_new (invoke fuel) T executor m =
    (Ret this,
     mkMachine (<[n := mkState Rejected (value s1) (error_of_exn x) [] []]> (heap m1))
               (trace m1)) /\
  code (error_of_exn x) = (-1)%Z /\
  message (error_of_exn x) =
    match x with StdException what => what | UnknownExn => "Unknown exception" end.
Proof.
  intros n this Hex H1 Hs Hc. split; [|destruct x; split; reflexivity].
  unfold Promise_new. eapply construct_throw; [exact Hex|].
  apply m_rejectFn_pending; assumption.
Qed.

(** [Promise<int>([](auto, auto) { throw 42; })] *)
Lemma executor_fault_rejects_witness :
  Promise_new (invoke 0) TInt throw_unknown empty_machine =
  (Ret (mkPromise TInt (Some 0)),
   mkMachine [mkState Rejected (VInt 0) unknownException [] []] []).
Proof.
  exact (proj1 (executor_fault_rejects 0 TInt throw_unknown empty_machine
                  (mkMachine [new_State TInt] []) UnknownExn (new_State TInt)
                  eq_refl eq_refl eq_refl eq_refl)).
Defined.

(** ** C8: a rejection is forwarded by [then(f)] *)

(** C8. On a promise already rejected with error [e], [then(f)] (either
    variant, any [f]) returns a new promise whose fresh record is [Rejected]
    with the very error [e]; nothing else changes and the trace is the same:
    [f] is not invoked. *)
Theorem then_forwards_rejection (fuel : nat) (m : Machine) (p : Promise) (r : nat)
    (s : State) (f : Callable) :
  d p = Some r -> heap m !! r = Some s -> state s = Rejected ->
  let U := result_type (return_type f) in
  then_F (invoke (S fuel)) p f m =
  (Ret (mkPromise U (Some (length (heap m)))),
   mkMachine (heap m ++ [mkState Rejected (default_value U) (error s) [] []]) (trace m)).
Proof.
  intros Hd H Hs U. subst U. expose_promise p as T. expose_state s.
  mrun. rewrite list_insert_insert_eq, insert_snoc_at by reflexivity. reflexivity.
Qed.

(** [Promise<int>::rejected("boom", 7).then([](const int& v) { return v + 1; })] *)
Lemma then_forwards_rejection_witness :
  then_F (invoke 1) (mkPromise TInt (Some 0)) (User (successor 1)) rejected_boom =
  (Ret (mkPromise TInt (Some 1)),
   mkMachine [mkState Rejected (VInt 0) (mkError "boom" 7%Z) [] [];
              mkState Rejected (VInt 0) (mkError "boom" 7%Z) [] []] []).
Proof.
  exact (then_forwards_rejection 0 rejected_boom (mkPromise TInt (Some 0)) 0
           (mkState Rejected (VInt 0) (mkError "boom" 7%Z) [] [])
           (User (successor 1)) eq_refl eq_refl eq_refl).
Defined.

(** ** C9: queues are cleared by a drain, and a late [catchError] is drained *)

(** C9. (1) Whenever [maybeInvoke] returns on a settled record, both queues of
    the record are empty. On a record that is [Rejected] and drained,
    [catchError(g)] (2) invokes [g] at once with the stored error, whatever
    [g] does, (3) leaves both queues empty whenever it returns, and (4) for a
    [g] that performs no promise operation and returns, returns the same
    promise and leaves the heap as it was. *)
Theorem late_catchError_is_drained (fuel : nat) (m : Machine) (p : Promise) (r : nat)
    (s : State) (g : Fn) :
  d p = Some r -> heap m !! r = Some s -> state s = Rejected ->
  thenCallbacks s = [] -> catchCallbacks s = [] ->
  (forall call m0 m0' r0 s0,
      heap m0 !! r0 = Some s0 -> state s0 ≠ Pending ->
      maybeInvoke call r0 m0 = (Ret tt, m0') ->
      exists s', heap m0' !! r0 = Some s' /\
        thenCallbacks s' = [] /\ catchCallbacks s' = []) /\
  (exists rest,
      trace (snd (catchError (invoke (S fuel)) p (User g) m)) =
      trace m ++ Invoked (label g) (AErr (error s)) :: rest) /\
  (forall q m', catchError (invoke (S fuel)) p (User g) m = (Ret q, m') ->
      q = p /\
      exists s', heap m' !! r = Some s' /\
        thenCallbacks s' = [] /\ catchCallbacks s' = []) /\
  (forall result,
      fst (body g (AErr (error s))) = [] ->
      snd (body g (AErr (error s))) = inr result ->
      catchError (invoke (S fuel)) p (User g) m =
      (Ret p, mkMachine (heap m) (trace m ++ [Invoked (label g) (AErr (error s))]))).
Proof.
  intros Hd H Hs Ht Hc.
  assert (Hr : r < length (heap m)) by (eapply lookup_lt_Some; eauto).
  (* the run of [catchError] up to the invocation of [g] *)
  assert (Hrun : catchError (invoke (S fuel)) p (User g) m =
    (maybeInvoke (invoke (S fuel)) r;; mret p)
      (mkMachine (<[r := push_catch (User g) s]> (heap m)) (trace m))).
  { unfold catchError. rewrite Hd. rewrite !bind_run.
    rewrite (deref_run _ _ _ H). reflexivity. }
  assert (Hloop : forall M, heap M !! r = Some (push_catch (User g) s) ->
    maybeInvoke (invoke (S fuel)) r M =
    (((_ ← invoke (S fuel) (User g) (AErr (error s)); mret tt);;
      s0 ← deref r;
      if (length (catchCallbacks s0) =? 1)%nat then mret tt else crash);;
     s' ← deref r; store r (clear_queues s')) M).
  { intros M HM. unfold maybeInvoke. rewrite !bind_run, (deref_run _ _ _ HM).
    cbn [state push_catch catchCallbacks error]. rewrite Hs, Hc.
    cbn [app for_each length]. rewrite !bind_run.
    destruct (invoke (S fuel) (User g) (AErr (error s)) M) as [[o|x| |] M1];
      reflexivity. }
  split; [|split; [|split]].
  - intros call m0 m0' r0 s0 H0 Hs0 Hret. eapply maybeInvoke_clears; eauto.
  - rewrite Hrun, bind_run, Hloop
      by (cbn [heap]; apply list_lookup_insert_eq; exact Hr).
    rewrite !bind_run.
    match goal with |- context [invoke (S fuel) (User g) ?a ?M] =>
      destruct (invoke_user_trace fuel g a M) as [rest Hrest];
      destruct (invoke (S fuel) (User g) a M) as [[o|x| |] M1] end;
      cbn [snd trace] in Hrest; try (exists rest; exact Hrest).
    rewrite ret_run, bind_run. unfold deref.
    destruct (heap M1 !! r) as [s1|]; [|exists rest; exact Hrest].
    destruct (length (catchCallbacks s1) =? 1)%nat; [|exists rest; exact Hrest].
    rewrite ret_run, bind_run. unfold deref.
    destruct (heap M1 !! r); exists rest; exact Hrest.
  - intros q m' Hret. rewrite Hrun, bind_run in Hret.
    match type of Hret with context [maybeInvoke ?c r ?M] =>
      destruct (maybeInvoke c r M) as [[[]|x| |] M1] eqn:Hm end;
      try discriminate Hret.
    rewrite ret_run in Hret. injection Hret as <- <-. split; [reflexivity|].
    eapply maybeInvoke_clears; [exact Hm| |].
    + cbn [heap]. apply list_lookup_insert_eq. exact Hr.
    + cbn [state push_catch]. rewrite Hs. discriminate.
  - intros result Hp Hres. rewrite Hrun, bind_run, Hloop
      by (cbn [heap]; apply list_lookup_insert_eq; exact Hr).
    rewrite !bind_run, (invoke_pure _ _ _ _ Hp), Hres. cbn beta iota.
    rewrite ret_run. cbn beta iota. rewrite bind_run. unfold deref. cbn [heap].
    rewrite list_lookup_insert_eq by exact Hr.
    cbn [push_catch catchCallbacks]. rewrite Hc. cbn [app length Nat.eqb].
    rewrite ret_run. cbn beta iota. rewrite bind_run. cbn [heap].
    rewrite list_lookup_insert_eq by exact Hr. unfold store. cbn beta iota.
    cbn [heap trace]. rewrite ret_run, list_insert_insert_eq.
    replace (clear_queues (push_catch (User g) s)) with s
      by (destruct s; cbn in *; subst; reflexivity).
    rewrite list_insert_id by exact H. reflexivity.
Qed.

(** [catchError] on a promise rejected with ("boom", 7) and drained. *)
Lemma late_catchError_is_drained_witness :
  catchError (invoke 1) (mkPromise TInt (Some 0)) (User (silent_handler 4)) rejected_boom =
  (Ret (mkPromise TInt (Some 0)),
   mkMachine (heap rejected_boom) [Invoked 4 (AErr (mkError "boom" 7%Z))]).
Proof.
  exact (proj2 (proj2 (proj2
           (late_catchError_is_drained 0 rejected_boom (mkPromise TInt (Some 0)) 0
              (mkState Rejected (VInt 0) (mkError "boom" 7%Z) [] [])
              (silent_handler 4) eq_refl eq_refl eq_refl eq_refl eq_refl)))
           None eq_refl eq_refl).
Defined.

(** ** C10: a callback that returns nothing where a value is expected *)



(** * Further properties of the header *)

(** ** The factories and the inspection functions *)

(** X1. The factories settle the new promise inside its constructor: the fresh
    record is [Fulfilled] with the value ([Rejected] with the error) and has
    empty queues, no callable is invoked, nothing else changes, and reading
    the promise back with [value()] ([error()]) returns what was given. *)
Theorem factories_settle_at_once (call : Callable -> Arg -> M (option Val))
    (m : Machine) (T : Ty) (v : Val) (e : PromiseError) (msg : string) (c : Z) :
  plain v ->
  let n := length (heap m) in
  let p := mkPromise T (Some n) in
  let fulfilled :=
    mkMachine (heap m ++ [mkState Fulfilled (if is_void T then default_value T else v)
                                  PromiseError_default [] []]) (trace m) in
  let rejected err :=
    mkMachine (heap m ++ [mkState Rejected (default_value T) err [] []]) (trace m) in
  Promise_resolved call T v m = (Ret p, fulfilled) /\
  Promise_rejected call T e m = (Ret p, rejected e) /\
  Promise_rejected_message call T msg c m = (Ret p, rejected (mkError msg c)) /\
  isFulfilled p fulfilled = true /\ isRejected p (rejected e) = true /\
  (is_void T = false -> value_of p fulfilled = (Ret v, fulfilled)) /\
  error_of p (rejected e) = (Ret e, rejected e).
Proof.
  intros Hv n p fulfilled rejected. subst n p fulfilled rejected.
  assert (Hrej : forall err, Promise_rejected call T err m =
    (Ret (mkPromise T (Some (length (heap m)))),
     mkMachine (heap m ++ [mkState Rejected (default_value T) err [] []]) (trace m))).
  { intros err. unfold Promise_rejected. mrun.
    rewrite list_insert_insert_eq, insert_snoc_at by reflexivity. reflexivity. }
  split; [|split; [apply Hrej|split; [apply Hrej|]]].
  - unfold Promise_resolved, resolve. cbn [ty d].
    destruct (is_void T) eqn:HT; [|destruct v as [|z|q]; [| |destruct Hv]];
      mrun; rewrite ?HT; mrun;
      rewrite list_insert_insert_eq, insert_snoc_at by reflexivity;
      reflexivity.
  - unfold isFulfilled, isRejected, state_of, value_of, error_of. cbn [d heap].
    rewrite !lookup_snoc_at by reflexivity. cbn [state].
    split; [reflexivity|]. split; [reflexivity|]. split; [|mrun; reflexivity].
    intros HT. rewrite HT. mrun. reflexivity.
Qed.

(** [Promise<int>::resolved(5)] and [Promise<int>::rejected("boom", 7)] *)
Lemma factories_settle_at_once_witness :
  Promise_resolved (invoke 0) TInt (VInt 5) empty_machine =
    (Ret (mkPromise TInt (Some 0)), fulfilled_5) /\
  Promise_rejected_message (invoke 0) TInt "boom" 7%Z empty_machine =
    (Ret (mkPromise TInt (Some 0)), rejected_boom) /\
  value_of (mkPromise TInt (Some 0)) fulfilled_5 = (Ret (VInt 5), fulfilled_5).
Proof.
  pose proof (factories_settle_at_once (invoke 0) empty_machine TInt (VInt 5)
                (mkError "boom" 7%Z) "boom" 7%Z I) as (H1 & _ & H3 & _ & _ & H6 & _).
  split; [exact H1|]. split; [exact H3|]. exact (H6 eq_refl).
Defined.

(** ** [then] on a settled promise *)

(** X2. On a fulfilled promise, [then(f)] and [then(f, g)] invoke [f] once with
    the stored value, inside the constructor of the new promise, and settle
    the new promise by what [f] does: fulfilled with the plain value it
    returns, fulfilled when it returns nothing and the new promise is a
    [Promise<void>], rejected with the fault's message and code -1 when it
    throws. The fault does not leave [then], and [g] is not invoked. *)
Theorem then_on_fulfilled (fuel : nat) (m : Machine) (p : Promise) (r : nat)
    (s : State) (f : Fn) (G : Callable) :
  let a := AVal (value s) in
  let U := result_type (rty f) in
  let result :=
    (Ret (mkPromise U (Some (length (heap m)))),
     mkMachine (heap m ++ [after_callback U (snd (body f a)) (new_State U)])
               (trace m ++ [Invoked (label f) a])) in
  d p = Some r -> heap m !! r = Some s -> state s = Fulfilled ->
  fst (body f a) = [] -> plain_outcome (snd (body f a)) ->
  then_F (invoke (S (S fuel))) p (User f) m = result /\
  then_FG (invoke (S (S fuel))) p (User f) G m = result.
Proof.
  intros a U result Hd Hr Hs Hp Ho. subst a U result.
  assert (Hrn : r < length (heap m)) by (eapply lookup_lt_Some; eauto).
  assert (Hex : forall hR,
    then_executor (invoke (S (S fuel)))
      (HandleFulfilled (User f) (mkPromise (result_type (rty f)) (Some (length (heap m)))) r)
      hR r (mkMachine (heap m ++ [new_State (result_type (rty f))]) (trace m)) =
    (Ret tt,
     mkMachine (heap m ++ [after_callback (result_type (rty f))
                             (snd (body f (AVal (value s))))
                             (new_State (result_type (rty f)))])
               (trace m ++ [Invoked (label f) (AVal (value s))]))).
  { intros hR. eapply then_executor_fulfilled;
      [cbn [heap]; rewrite lookup_app_one_l by exact Hrn; exact Hr|exact Hs|].
    rewrite invoke_HandleFulfilled, bind_run.
    rewrite (handler_of_plain_callback _ _ _ _ _ _ _ (new_State (result_type (rty f))));
      try assumption; try reflexivity.
    - cbn [heap trace]. rewrite insert_snoc_at by reflexivity. reflexivity.
    - cbn [heap]. apply lookup_snoc_at. reflexivity. }
  split.
  - unfold then_F. rewrite Hd. cbn [return_type].
    erewrite construct_ret; [reflexivity|]. apply Hex.
  - unfold then_FG, PromiseVoid_then_FG, Promise_then_FG. rewrite Hd. cbn [return_type].
    destruct (is_void (ty p)); (erewrite construct_ret; [reflexivity|]); apply Hex.
Qed.

(** [Promise<int>::resolved(5).then([](const int& v) { return v + 1; })] *)
Lemma then_on_fulfilled_witness :
  then_F (invoke 2) (mkPromise TInt (Some 0)) (User (successor 1)) fulfilled_5 =
  (Ret (mkPromise TInt (Some 1)),
   mkMachine [mkState Fulfilled (VInt 5) PromiseError_default [] [];
              mkState Fulfilled (VInt 6) PromiseError_default [] []]
             [Invoked 1 (AVal (VInt 5))]).
Proof.
  exact (proj1 (then_on_fulfilled 0 fulfilled_5 (mkPromise TInt (Some 0)) 0
                  (mkState Fulfilled (VInt 5) PromiseError_default [] [])
                  (successor 1) (Empty TVoid) eq_refl eq_refl eq_refl eq_refl I)).
Defined.

(** X3. On a rejected promise, [then(f, g)] invokes [g] once with the stored
    error and settles the new promise by what [g] does: a plain value
    returned by [g] fulfils it (the rejection is recovered), a fault rejects
    it with code -1; [f] is not invoked. *)
Theorem then_FG_on_rejected (fuel : nat) (m : Machine) (p : Promise) (r : nat)
    (s : State) (F : Callable) (g : Fn) :
  let a := AErr (error s) in
  let U := result_type (return_type F) in
  d p = Some r -> heap m !! r = Some s -> state s = Rejected ->
  fst (body g a) = [] -> plain_outcome (snd (body g a)) ->
  then_FG (invoke (S (S fuel))) p F (User g) m =
  (Ret (mkPromise U (Some (length (heap m)))),
   mkMachine (heap m ++ [after_callback U (snd (body g a)) (new_State U)])
             (trace m ++ [Invoked (label g) a])).
Proof.
  intros a U Hd Hr Hs Hp Ho. subst a.
  assert (Hrn : r < length (heap m)) by (eapply lookup_lt_Some; eauto).
  assert (Hex :
    then_executor (invoke (S (S fuel)))
      (HandleFulfilled F (mkPromise U (Some (length (heap m)))) r)
      (HandleRejected (User g) (mkPromise U (Some (length (heap m)))) r) r
      (mkMachine (heap m ++ [new_State U]) (trace m)) =
    (Ret tt,
     mkMachine (heap m ++ [after_callback U (snd (body g (AErr (error s)))) (new_State U)])
               (trace m ++ [Invoked (label g) (AErr (error s))]))).
  { eapply then_executor_rejected;
      [cbn [heap]; rewrite lookup_app_one_l by exact Hrn; exact Hr|exact Hs|].
    rewrite invoke_HandleRejected, bind_run.
    rewrite (handler_of_plain_callback _ _ _ _ _ _ _ (new_State U));
      try assumption; try reflexivity.
    - cbn [heap trace]. rewrite insert_snoc_at by reflexivity. reflexivity.
    - cbn [heap]. apply lookup_snoc_at. reflexivity. }
  unfold then_FG, PromiseVoid_then_FG, Promise_then_FG. rewrite Hd. fold U.
  destruct (is_void (ty p)); (erewrite construct_ret; [reflexivity|]); apply Hex.
Qed.

(** [Promise<int>::rejected("boom", 7)
       .then([](int v) { return v + 1; }, [](auto& e) { return -1; })] *)
Lemma then_FG_on_rejected_witness :
  then_FG (invoke 2) (mkPromise TInt (Some 0)) (User (successor 1)) (User (recover 2))
    rejected_boom =
  (Ret (mkPromise TInt (Some 1)),
   mkMachine [mkState Rejected (VInt 0) (mkError "boom" 7%Z) [] [];
              mkState Fulfilled (VInt (-1)) PromiseError_default [] []]
             [Invoked 2 (AErr (mkError "boom" 7%Z))]).
Proof.
  exact (then_FG_on_rejected 0 rejected_boom (mkPromise TInt (Some 0)) 0
           (mkState Rejected (VInt 0) (mkError "boom" 7%Z) [] [])
           (User (successor 1)) (recover 2) eq_refl eq_refl eq_refl eq_refl I).
Defined.

(** ** [then] on a pending promise *)

(** X4. On a pending promise, [then(f)] and [then(f, g)] only register: for any
    callables and whatever they would do, nothing is invoked, the call
    returns a new pending promise on a fresh record, and the source record
    gets exactly one more entry at the end of each queue (the handler of [f],
    and the forwarding lambda or the handler of [g]). *)
Theorem then_on_pending_registers (call : Callable -> Arg -> M (option Val))
    (m : Machine) (p : Promise) (r : nat) (s : State) (F G : Callable) :
  let U := result_type (return_type F) in
  let next := mkPromise U (Some (length (heap m))) in
  let registered hR :=
    (Ret next,
     mkMachine (<[r := mkState Pending (value s) (error s)
                         (thenCallbacks s ++ [HandleFulfilled F next r])
                         (catchCallbacks s ++ [hR])]> (heap m) ++ [new_State U])
               (trace m)) in
  d p = Some r -> heap m !! r = Some s -> state s = Pending ->
  then_F call p F m = registered (RejectWith next) /\
  then_FG call p F G m = registered (HandleRejected G next r).
Proof.
  intros U next registered Hd Hr Hs. subst next registered.
  assert (Hrn : r < length (heap m)) by (eapply lookup_lt_Some; eauto).
  expose_promise p as T. expose_state s. fold U. split.
  - unfold then_F. cbn [d]. fold U. mrun. rewrite insert_app_l by exact Hrn. reflexivity.
  - unfold then_FG, PromiseVoid_then_FG, Promise_then_FG. cbn [d ty]. fold U.
    destruct (is_void T); mrun; rewrite insert_app_l by exact Hrn; reflexivity.
Qed.

(** [p.then(f, g)] on a pending [Promise<int>] *)
Lemma then_on_pending_registers_witness :
  then_FG (invoke 0) (mkPromise TInt (Some 0)) (User (successor 1)) (User (recover 2))
    pending_1 =
  (Ret (mkPromise TInt (Some 1)),
   mkMachine [mkState Pending (VInt 0) PromiseError_default
                [HandleFulfilled (User (successor 1)) (mkPromise TInt (Some 1)) 0]
                [HandleRejected (User (recover 2)) (mkPromise TInt (Some 1)) 0];
              new_State TInt] []).
Proof.
  exact (proj2 (then_on_pending_registers (invoke 0) pending_1 (mkPromise TInt (Some 0)) 0
                  (new_State TInt) (User (successor 1)) (User (recover 2))
                  eq_refl eq_refl eq_refl)).
Defined.

(** ** Continuations registered before settlement *)

(** X5. [q = p.then(f, g)] on a pending promise, with callbacks [f] and [g]
    that make no promise call of their own (each returns a plain value,
    returns nothing or throws). Registration invokes nothing. When [p] has no
    fulfilment continuation queued before, a later [resolve(v)] invokes [f]
    with the value, once, and never [g]; when [p] has no rejection handler
    queued before, a later [reject(e)] invokes [g] with [e], once, and never
    [f]. In both cases nothing else is invoked, [q] is settled by what the
    invoked callback does, and [p] ends settled with both queues empty. *)
Theorem deferred_then_FG (fuel : nat) (m : Machine) (p : Promise) (r : nat)
    (s : State) (f g : Fn) (v : Val) (e : PromiseError) :
  let av := AVal (if is_void (ty p) then value s else v) in
  let U := result_type (rty f) in
  let n := length (heap m) in
  d p = Some r -> heap m !! r = Some s -> state s = Pending -> plain v ->
  fst (body f av) = [] -> plain_outcome (snd (body f av)) ->
  fst (body g (AErr e)) = [] -> plain_outcome (snd (body g (AErr e))) ->
  exists m1,
    then_FG (invoke (S (S fuel))) p (User f) (User g) m = (Ret (mkPromise U (Some n)), m1) /\
    trace m1 = trace m /\
    (thenCallbacks s = [] -> exists m2 sr,
       resolve (invoke (S (S fuel))) p v m1 = (Ret tt, m2) /\
       trace m2 = trace m ++ [Invoked (label f) av] /\
       heap m2 !! n = Some (after_callback U (snd (body f av)) (new_State U)) /\
       heap m2 !! r = Some sr /\ state sr = Fulfilled /\
       thenCallbacks sr = [] /\ catchCallbacks sr = []) /\
    (catchCallbacks s = [] -> exists m2,
       reject (invoke (S (S fuel))) p e m1 = (Ret tt, m2) /\
       trace m2 = trace m ++ [Invoked (label g) (AErr e)] /\
       heap m2 !! n = Some (after_callback U (snd (body g (AErr e))) (new_State U)) /\
       heap m2 !! r = Some (mkState Rejected (value s) e [] [])).
Proof.
  intros av U n Hd Hr Hs Hv Hpf Hof Hpg Hog. subst av n.
  expose_promise p as T. expose_state s.
  assert (Hrn : r < length (heap m)) by (eapply lookup_lt_Some; eauto).
  assert (Hreg :
    then_FG (invoke (S (S fuel))) (mkPromise T (Some r)) (User f) (User g) m =
    (Ret (mkPromise U (Some (length (heap m)))),
     mkMachine (<[r := mkState Pending v0 e0
                         (tc ++ [HandleFulfilled (User f)
                                   (mkPromise U (Some (length (heap m)))) r])
                         (cc ++ [HandleRejected (User g)
                                   (mkPromise U (Some (length (heap m)))) r])]>
                  (heap m) ++ [new_State U])
               (trace m))).
  { unfold then_FG, PromiseVoid_then_FG, Promise_then_FG. cbn [d ty return_type]. fold U.
    destruct (is_void T); mrun; rewrite insert_app_l by exact Hrn; reflexivity. }
  eexists. split; [exact Hreg|]. split; [reflexivity|].
  set (n := length (heap m)) in *.
  assert (Hn : n = length (heap m)) by reflexivity. clearbody n.
  split.
  - intros ->. cbn [app].
    destruct (is_void T) eqn:HT; [|destruct v as [|z|q]; [| |destruct Hv]];
      (eexists; eexists; split;
       [ unfold resolve; cbn [ty d]; rewrite HT;
         repeat first
           [ rewrite invoke_HandleFulfilled
           | erewrite handler_of_plain_callback
               by (first [lookup_solve | reflexivity | eassumption])
           | mstep ];
         reflexivity
       | cbn [trace heap]; split; [reflexivity|]; split; [lookup_solve|];
         split; [lookup_solve|]; repeat split ]).
  - intros ->. cbn [app]. eexists. split;
      [ unfold reject; cbn [d];
        repeat first
          [ rewrite invoke_HandleRejected
          | erewrite handler_of_plain_callback
              by (first [lookup_solve | reflexivity | eassumption])
          | mstep ];
        reflexivity
      | cbn [trace heap]; split; [reflexivity|]; split; lookup_solve ].
Qed.

(** [q = p.then(successor, recover)] on a pending [Promise<int>], then
    [p.reject("boom", 7)]: [recover] runs and [q] is fulfilled with -1. *)
Lemma deferred_then_FG_witness :
  exists m1 m2,
    then_FG (invoke 2) (mkPromise TInt (Some 0)) (User (successor 1)) (User (recover 2))
      pending_1 = (Ret (mkPromise TInt (Some 1)), m1) /\
    reject (invoke 2) (mkPromise TInt (Some 0)) (mkError "boom" 7%Z) m1 = (Ret tt, m2) /\
    trace m2 = [Invoked 2 (AErr (mkError "boom" 7%Z))] /\
    heap m2 !! 1 = Some (mkState Fulfilled (VInt (-1)) PromiseError_default [] []).
Proof.
  destruct (deferred_then_FG 0 pending_1 (mkPromise TInt (Some 0)) 0 (new_State TInt)
              (successor 1) (recover 2) (VInt 3) (mkError "boom" 7%Z)
              eq_refl eq_refl eq_refl I eq_refl I eq_refl I)
    as (m1 & H1 & _ & _ & Hrej).
  destruct (Hrej eq_refl) as (m2 & H2 & H3 & H4 & _).
  exists m1, m2. repeat split; assumption.
Defined.

(** X6. [q = p.then(f)] on a pending promise that has no rejection handler
    queued yet (whatever its fulfilment continuations), then [p.reject(e)]:
    [q] is rejected with the very error [e], and neither [f], whatever it is,
    nor any fulfilment continuation of [p] is invoked; both queues of [p] end
    empty. The overload [p.reject(message, code)] does the same with the
    error made of the message and the code. *)
Theorem deferred_rejection_is_forwarded (fuel : nat) (m : Machine) (p : Promise)
    (r : nat) (s : State) (F : Callable) (e : PromiseError) (msg : string) (c : Z) :
  let U := result_type (return_type F) in
  let n := length (heap m) in
  let result err :=
    (Ret (mkPromise U (Some n)),
     mkMachine (<[r := mkState Rejected (value s) err [] []]> (heap m)
                ++ [mkState Rejected (default_value U) err [] []])
               (trace m)) in
  d p = Some r -> heap m !! r = Some s -> state s = Pending ->
  catchCallbacks s = [] ->
  (q ← then_F (invoke (S fuel)) p F; reject (invoke (S fuel)) p e;; mret q) m =
    result e /\
  (q ← then_F (invoke (S fuel)) p F; reject_message (invoke (S fuel)) p msg c;; mret q) m =
    result (mkError msg c).
Proof.
  intros U n result Hd Hr Hs Hc. subst n result.
  expose_promise p as T. expose_state s.
  assert (Hrn : r < length (heap m)) by (eapply lookup_lt_Some; eauto).
  assert (H : forall err,
    (q ← then_F (invoke (S fuel)) (mkPromise T (Some r)) F;
     reject (invoke (S fuel)) (mkPromise T (Some r)) err;; mret q) m =
    (Ret (mkPromise U (Some (length (heap m)))),
     mkMachine (<[r := mkState Rejected v err [] []]> (heap m)
                ++ [mkState Rejected (default_value U) err [] []])
               (trace m))).
  { intros err. unfold then_F. cbn [d]. fold U. mrun. heap_norm. reflexivity. }
  split; [apply H|]. unfold reject_message. apply H.
Qed.

(** [q = p.then(successor)] on a pending [Promise<int>], then
    [p.reject("boom", 7)] *)
Lemma deferred_rejection_is_forwarded_witness :
  (q ← then_F (invoke 1) (mkPromise TInt (Some 0)) (User (successor 1));
   reject_message (invoke 1) (mkPromise TInt (Some 0)) "boom" 7%Z;; mret q) pending_1 =
  (Ret (mkPromise TInt (Some 1)),
   mkMachine [mkState Rejected (VInt 0) (mkError "boom" 7%Z) [] [];
              mkState Rejected (VInt 0) (mkError "boom" 7%Z) [] []] []).
Proof.
  exact (proj2 (deferred_rejection_is_forwarded 0 pending_1 (mkPromise TInt (Some 0)) 0
                  (new_State TInt) (User (successor 1)) (mkError "x" 1%Z) "boom" 7%Z
                  eq_refl eq_refl eq_refl eq_refl)).
Defined.
(** ** An invariant of the records *)

Lemma all_records_insert (P : State -> Prop) (m : Machine) (r : nat) (s : State) t :
  all_records P m -> P s -> all_records P (mkMachine (<[r := s]> (heap m)) t).
Proof.
  intros Hm Hs r0 s0. cbn [heap]. intros H.
  apply list_lookup_insert_Some in H as [(-> & -> & _)|(_ & H)]; eauto.
Qed.

Lemma all_records_snoc (P : State -> Prop) (m : Machine) (s : State) t :
  all_records P m -> P s -> all_records P (mkMachine (heap m ++ [s]) t).
Proof.
  intros Hm Hs r0 s0. cbn [heap]. intros H.
  apply lookup_app_Some in H as [H|(_ & H)]; [eauto|].
  apply list_lookup_singleton_Some in H as (_ & <-). exact Hs.
Qed.

Lemma keeps_ret {A} P (a : A) : keeps P (mret a).
Proof. intros m H. exact H. Qed.

Lemma keeps_throw {A} P x : keeps P (@throw A x).
Proof. intros m H. exact H. Qed.

Lemma keeps_crash {A} P : keeps P (@crash A).
Proof. intros m H. exact H. Qed.

Lemma keeps_out_of_fuel {A} P : keeps P (@out_of_fuel A).
Proof. intros m H. exact H. Qed.

Lemma keeps_bind {A B} P (c : M A) (k : A -> M B) :
  keeps P c -> (forall a, keeps P (k a)) -> keeps P (c ≫= k).
Proof.
  intros Hc Hk m H. rewrite bind_run. specialize (Hc m H).
  destruct (c m) as [[a|x| |] m']; simpl in *; try exact Hc.
  apply Hk. exact Hc.
Qed.

Lemma keeps_try_catch {A} P (c : M A) h :
  keeps P c -> (forall x, keeps P (h x)) -> keeps P (try_catch c h).
Proof.
  intros Hc Hh m H. unfold try_catch. specialize (Hc m H).
  destruct (c m) as [[a|x| |] m']; simpl in *; try exact Hc.
  apply Hh. exact Hc.
Qed.

Lemma keeps_alloc P s : P s -> keeps P (alloc s).
Proof. intros Hs m H. apply all_records_snoc; assumption. Qed.

Lemma keeps_emit P e : keeps P (emit e).
Proof. intros m H. exact H. Qed.

Lemma keeps_store P r s : P s -> keeps P (store r s).
Proof. intros Hs m H. apply all_records_insert; assumption. Qed.

(** Reading a record and then running code that depends on it: the code may
    assume the record satisfies the invariant. *)
Lemma keeps_deref_bind {A} P r (k : State -> M A) :
  (forall s, P s -> keeps P (k s)) -> keeps P (deref r ≫= k).
Proof.
  intros Hk m H. rewrite bind_run. unfold deref.
  destruct (heap m !! r) as [s|] eqn:E; [|exact H].
  apply Hk; [eapply H; exact E|exact H].
Qed.

Section OperationsKeep.

Variable P : State -> Prop.
Hypothesis P_new : forall T, P (new_State T).
Hypothesis P_push_then : forall cb s, P s -> P (push_then cb s).
Hypothesis P_push_catch : forall cb s, P s -> P (push_catch cb s).
Hypothesis P_clear : forall s, P s -> P (clear_queues s).
Hypothesis P_reject :
  forall e s, P s -> state s = Pending -> P (set_error e (set_state Rejected s)).
Hypothesis P_fulfil :
  forall v s, P s -> state s = Pending -> P (set_value v (set_state Fulfilled s)).
Hypothesis P_fulfil_void :
  forall s, P s -> state s = Pending -> P (set_state Fulfilled s).

Variable call : Callable -> Arg -> M (option Val).
Hypothesis call_keeps : forall cb a, keeps P (call cb a).

Lemma keeps_for_each r queue n cbs a : keeps P (for_each call r queue n cbs a).
Proof.
  induction cbs as [|cb rest IH]; simpl; [apply keeps_ret|].
  apply keeps_bind.
  - destruct cb; try apply keeps_ret;
      (apply keeps_bind; [apply call_keeps|intros; apply keeps_ret]).
  - intros _. apply keeps_deref_bind. intros s _.
    destruct (length (queue s) =? n)%nat; [exact IH|apply keeps_crash].
Qed.

Lemma keeps_maybeInvoke r : keeps P (maybeInvoke call r).
Proof.
  unfold maybeInvoke. apply keeps_deref_bind. intros s _.
  destruct (state s); [apply keeps_ret| |];
    (apply keeps_bind; [apply keeps_for_each|intros _]);
    apply keeps_deref_bind; intros s' Hs'; apply keeps_store; auto.
Qed.

(** The settlement pattern of the source: test for [Pending], write, drain. *)
Lemma keeps_settle r (f : State -> State) :
  (forall s, P s -> state s = Pending -> P (f s)) ->
  keeps P (s ← deref r;
           if decide (state s ≠ Pending) then mret tt
           else store r (f s);; maybeInvoke call r).
Proof.
  intros Hf. apply keeps_deref_bind. intros s Hs.
  destruct (decide (state s ≠ Pending)) as [Hp|Hp]; [apply keeps_ret|].
  apply keeps_bind; [|intros _; apply keeps_maybeInvoke].
  apply keeps_store, Hf; [exact Hs|].
  destruct (state s); try reflexivity; exfalso; apply Hp; discriminate.
Qed.

Lemma keeps_m_rejectFn statePtr err : keeps P (m_rejectFn call statePtr err).
Proof.
  destruct statePtr as [r|]; simpl; [|apply keeps_ret].
  apply (keeps_settle r (fun s => set_error err (set_state Rejected s))). auto.
Qed.

Lemma keeps_m_resolveFn_void statePtr : keeps P (m_resolveFn_void call statePtr).
Proof.
  destruct statePtr as [r|]; simpl; [|apply keeps_ret].
  apply (keeps_settle r (set_state Fulfilled)). auto.
Qed.

Lemma keeps_construct T executor :
  (forall this, keeps P (executor this)) -> keeps P (construct call T executor).
Proof.
  intros He. unfold construct.
  apply keeps_bind; [apply keeps_alloc, P_new|]. intros r.
  apply keeps_bind; [|intros; apply keeps_ret].
  apply keeps_try_catch; [apply He|].
  intros x. apply keeps_m_rejectFn.
Qed.

Lemma keeps_catchError this onRejected : keeps P (catchError call this onRejected).
Proof.
  unfold catchError. apply keeps_bind; [|intros; apply keeps_ret].
  destruct (d this) as [r|]; [|apply keeps_ret].
  apply keeps_deref_bind. intros s Hs.
  apply keeps_bind; [apply keeps_store; auto|intros _; apply keeps_maybeInvoke].
Qed.

Lemma keeps_then_executor hF hR currentState :
  keeps P (then_executor call hF hR currentState).
Proof.
  unfold then_executor. apply keeps_deref_bind. intros s Hs.
  destruct (state s).
  - apply keeps_store; auto.
  - apply keeps_bind; [apply call_keeps|intros; apply keeps_ret].
  - apply keeps_bind; [apply call_keeps|intros; apply keeps_ret].
Qed.

Lemma keeps_then_F this onFulfilled : keeps P (then_F call this onFulfilled).
Proof.
  unfold then_F. destruct (d this) as [r|]; apply keeps_construct; intros next.
  - apply keeps_then_executor.
  - apply keeps_m_rejectFn.
Qed.

Lemma keeps_then_FG this onFulfilled onRejected :
  keeps P (then_FG call this onFulfilled onRejected).
Proof.
  unfold then_FG, PromiseVoid_then_FG, Promise_then_FG.
  destruct (is_void (ty this)), (d this) as [r|];
    apply keeps_construct; intros next;
    first [apply keeps_then_executor|apply keeps_m_rejectFn|apply keeps_crash].
Qed.

Lemma keeps_m_resolveFn statePtr v : keeps P (m_resolveFn call statePtr v).
Proof.
  destruct statePtr as [r|]; simpl; [|apply keeps_ret].
  apply keeps_deref_bind. intros s Hs.
  destruct (decide (state s ≠ Pending)) as [Hp|Hp]; [apply keeps_ret|].
  assert (Hpend : state s = Pending).
  { destruct (state s); try reflexivity; exfalso; apply Hp; discriminate. }
  assert (Hplain : forall v', keeps P
            (store r (set_value v' (set_state Fulfilled s));; maybeInvoke call r)).
  { intros v'. apply keeps_bind; [apply keeps_store; auto|].
    intros _; apply keeps_maybeInvoke. }
  destruct v as [|z|inner]; try apply Hplain. apply keeps_crash.
Qed.

Lemma keeps_resolve this v : keeps P (resolve call this v).
Proof.
  unfold resolve. destruct (is_void (ty this));
    [apply keeps_m_resolveFn_void|apply keeps_m_resolveFn].
Qed.

Lemma keeps_reject this err : keeps P (reject call this err).
Proof. apply keeps_m_rejectFn. Qed.

Lemma keeps_settle_from_result next currentState result :
  keeps P (settle_from_result call next currentState result).
Proof.
  unfold settle_from_result. destruct result as [[|z|result]|].
  - apply keeps_m_resolveFn.
  - apply keeps_m_resolveFn.
  - destruct (decide (d result = Some currentState)); [apply keeps_m_rejectFn|].
    apply keeps_bind; [apply keeps_then_F|]. intros _.
    apply keeps_bind; [apply keeps_catchError|]. intros; apply keeps_ret.
  - destruct (is_void (ty next));
      [apply keeps_m_resolveFn_void|apply keeps_m_rejectFn].
Qed.

Lemma keeps_handle callback next currentState a :
  keeps P (handle call callback next currentState a).
Proof.
  unfold handle. apply keeps_try_catch.
  - apply keeps_bind; [apply call_keeps|].
    intros result. apply keeps_settle_from_result.
  - intros x. apply keeps_m_rejectFn.
Qed.

Lemma keeps_run_act a : keeps P (run_act call a).
Proof.
  destruct a as [p v|p e|p f [g|]|p g]; simpl.
  - apply keeps_resolve.
  - apply keeps_reject.
  - apply keeps_bind; [apply keeps_then_FG|intros; apply keeps_ret].
  - apply keeps_bind; [apply keeps_then_F|intros; apply keeps_ret].
  - apply keeps_bind; [apply keeps_catchError|intros; apply keeps_ret].
Qed.

Lemma keeps_run_acts acts : keeps P (run_acts call acts).
Proof.
  induction acts as [|a rest IH]; simpl; [apply keeps_ret|].
  apply keeps_bind; [apply keeps_run_act|intros _; exact IH].
Qed.

Lemma keeps_invoke_body cb a : keeps P (invoke_body call cb a).
Proof.
  unfold invoke_body.
  destruct cb as [R|f|next|next|next|F next cs|G next cs].
  - apply keeps_throw.
  - apply keeps_bind; [apply keeps_emit|]. intros _.
    apply keeps_bind; [apply keeps_run_acts|]. intros _.
    destruct (snd (body f a)); [apply keeps_throw|apply keeps_ret].
  - destruct a; [|apply keeps_crash].
    apply keeps_bind; [apply keeps_m_resolveFn|intros; apply keeps_ret].
  - destruct a; [|apply keeps_crash].
    apply keeps_bind; [apply keeps_m_resolveFn_void|intros; apply keeps_ret].
  - destruct a; [apply keeps_crash|].
    apply keeps_bind; [apply keeps_m_rejectFn|intros; apply keeps_ret].
  - destruct a; [|apply keeps_crash].
    apply keeps_bind; [apply keeps_handle|intros; apply keeps_ret].
  - destruct a; [apply keeps_crash|].
    apply keeps_bind; [apply keeps_handle|intros; apply keeps_ret].
Qed.

Lemma keeps_run_executor executor this : keeps P (run_executor call executor this).
Proof.
  unfold run_executor. apply keeps_bind; [apply keeps_run_acts|]. intros _.
  destruct (snd (executor this)); [apply keeps_throw|apply keeps_ret].
Qed.

End OperationsKeep.

Section InvokeKeeps.

Variable P : State -> Prop.
Hypothesis P_new : forall T, P (new_State T).
Hypothesis P_push_then : forall cb s, P s -> P (push_then cb s).
Hypothesis P_push_catch : forall cb s, P s -> P (push_catch cb s).
Hypothesis P_clear : forall s, P s -> P (clear_queues s).
Hypothesis P_reject :
  forall e s, P s -> state s = Pending -> P (set_error e (set_state Rejected s)).
Hypothesis P_fulfil :
  forall v s, P s -> state s = Pending -> P (set_value v (set_state Fulfilled s)).
Hypothesis P_fulfil_void :
  forall s, P s -> state s = Pending -> P (set_state Fulfilled s).

Lemma keeps_invoke fuel cb a : keeps P (invoke fuel cb a).
Proof.
  revert cb a. induction fuel as [|n IH]; intros cb a; simpl.
  - apply keeps_out_of_fuel.
  - apply keeps_invoke_body; assumption.
Qed.

End InvokeKeeps.

Lemma one_outcome_new T : one_outcome (new_State T).
Proof. split; [reflexivity|]. intros _. exists T. reflexivity. Qed.

Lemma one_outcome_reject e s :
  one_outcome s -> state s = Pending -> one_outcome (set_error e (set_state Rejected s)).
Proof.
  intros [_ Hv] Hs. split; cbn; [congruence|].
  intros _. apply Hv. congruence.
Qed.

Lemma one_outcome_fulfil v s :
  one_outcome s -> state s = Pending -> one_outcome (set_value v (set_state Fulfilled s)).
Proof.
  intros [He _] Hs. split; cbn; [|congruence].
  intros _. apply He. congruence.
Qed.

Lemma one_outcome_fulfil_void s :
  one_outcome s -> state s = Pending -> one_outcome (set_state Fulfilled s).
Proof.
  intros [He _] Hs. split; cbn; [|congruence].
  intros _. apply He. congruence.
Qed.

Lemma keeps_one_outcome_invoke fuel cb a : keeps one_outcome (invoke fuel cb a).
Proof.
  apply keeps_invoke; auto using one_outcome_new, one_outcome_reject,
    one_outcome_fulfil, one_outcome_fulfil_void.
Qed.

(** X7. No record ever holds both an outcome value and an error: whatever a
    client does through the interface ([run_acts] runs any sequence of
    [resolve], [reject], [then] and [catchError] calls, with any callables,
    which again may do the same) and whatever a constructor's executor does,
    a record that is not [Rejected] holds the default error and a record that
    is not [Fulfilled] holds the default value of its type, also when the
    program throws or runs out of budget. *)
Theorem records_hold_one_outcome (fuel : nat) (m : Machine) :
  all_records one_outcome m ->
  (forall acts, all_records one_outcome (snd (run_acts (invoke fuel) acts m))) /\
  (forall T executor,
      all_records one_outcome (snd (Promise_new (invoke fuel) T executor m))) /\
  (forall cb a, all_records one_outcome (snd (invoke fuel cb a m))).
Proof.
  intros Hm.
  pose proof one_outcome_new. pose proof one_outcome_reject.
  pose proof one_outcome_fulfil. pose proof one_outcome_fulfil_void.
  assert (Hc : forall cb a, keeps one_outcome (invoke fuel cb a))
    by (intros; apply keeps_one_outcome_invoke).
  split; [|split].
  - intros acts. apply (keeps_run_acts one_outcome); auto.
  - intros T executor. unfold Promise_new.
    apply (keeps_construct one_outcome); auto.
    intros this. apply keeps_run_executor; auto.
  - intros cb a. apply Hc. exact Hm.
Qed.

(** [Promise<int> p([](auto resolve, auto) { resolve(5); throw
    std::runtime_error("boom"); });] on the empty heap: the one record is
    fulfilled with 5 and holds the default error. *)
Lemma records_hold_one_outcome_witness :
  all_records one_outcome empty_machine /\
  all_records one_outcome
    (snd (Promise_new (invoke 1) TInt resolve_then_throw empty_machine)) /\
  heap (snd (Promise_new (invoke 1) TInt resolve_then_throw empty_machine)) =
    [mkState Fulfilled (VInt 5) PromiseError_default [] []].
Proof.
  assert (H0 : all_records one_outcome empty_machine).
  { intros r s H. destruct r; discriminate H. }
  split; [exact H0|]. split; [|reflexivity].
  exact (proj1 (proj2 (records_hold_one_outcome 1 empty_machine H0)) TInt resolve_then_throw).
Defined.
(** ** Chains *)

(** X8. A rejection passes through a chain of [then(f)] calls of any length: on a
    rejected promise, [p.then(F1).then(F2)...then(Fk)] invokes none of the
    callables, allocates one record per link, each [Rejected] with the error
    of [p], and returns a promise that is rejected with that very error. *)
Theorem rejection_skips_then_chain (fuel : nat) (fs : list Callable) (m : Machine)
    (p : Promise) (r : nat) (s : State) :
  d p = Some r -> heap m !! r = Some s -> state s = Rejected ->
  let m' :=
    mkMachine (heap m ++
               map (fun F => mkState Rejected (default_value (result_type (return_type F)))
                                     (error s) [] []) fs)
              (trace m) in
  exists q,
    then_chain (invoke (S fuel)) p fs m = (Ret q, m') /\
    isRejected q m' = true /\ error_of q m' = (Ret (error s), m').
Proof.
  revert m p r s. induction fs as [|F rest IH]; intros m p r s Hd Hr Hs m'; subst m'.
  - exists p. cbn [map then_chain]. rewrite app_nil_r. destruct m as [h t]. cbn [heap trace] in *.
    split; [reflexivity|].
    unfold isRejected, state_of, error_of. rewrite Hd. cbn [heap]. rewrite Hr, Hs.
    split; [reflexivity|]. rewrite bind_run. unfold deref. cbn [heap]. rewrite Hr. reflexivity.
  - set (U := result_type (return_type F)).
    assert (Hrn : r < length (heap m)) by (eapply lookup_lt_Some; eauto).
    assert (H1 : then_F (invoke (S fuel)) p F m =
      (Ret (mkPromise U (Some (length (heap m)))),
       mkMachine (heap m ++ [mkState Rejected (default_value U) (error s) [] []]) (trace m))).
    { clear IH. expose_promise p as T. expose_state s. fold U.
      mrun. rewrite list_insert_insert_eq, insert_snoc_at by reflexivity. reflexivity. }
    destruct (IH (mkMachine (heap m ++ [mkState Rejected (default_value U) (error s) [] []])
                            (trace m))
                (mkPromise U (Some (length (heap m)))) (length (heap m))
                (mkState Rejected (default_value U) (error s) [] [])
                eq_refl (lookup_snoc_at (heap m) _ _ eq_refl) eq_refl)
      as (q & Hq & Hst & Herr).
    cbn [heap trace error] in Hq, Hst, Herr. rewrite <- app_assoc in Hq, Hst, Herr.
    exists q. cbn [then_chain map]. fold U.
    rewrite (bind_ret _ _ _ _ _ H1). auto.
Qed.

(** [Promise<int>::rejected("boom", 7).then(successor).then(successor)] *)
Lemma rejection_skips_then_chain_witness :
  let m' := mkMachine [mkState Rejected (VInt 0) (mkError "boom" 7%Z) [] [];
                       mkState Rejected (VInt 0) (mkError "boom" 7%Z) [] [];
                       mkState Rejected (VInt 0) (mkError "boom" 7%Z) [] []] [] in
  exists q,
    then_chain (invoke 1) (mkPromise TInt (Some 0))
      [User (successor 1); User (successor 2)] rejected_boom = (Ret q, m') /\
    isRejected q m' = true /\ error_of q m' = (Ret (mkError "boom" 7%Z), m').
Proof.
  exact (rejection_skips_then_chain 0 [User (successor 1); User (successor 2)]
           rejected_boom (mkPromise TInt (Some 0)) 0
           (mkState Rejected (VInt 0) (mkError "boom" 7%Z) [] [])
           eq_refl eq_refl eq_refl).
Defined.

(** X9. [p.then(f).then(g)] on a fulfilled promise: [f] is invoked with the value
    of [p], the first new promise is fulfilled with the plain value [u] that
    [f] returns, [g] is invoked with [u], and the second new promise is
    settled by what [g] does with it. Both run inside the two calls, [f]
    before [g], each once. *)
Theorem then_then_composes (fuel : nat) (m : Machine) (p : Promise) (r : nat)
    (s : State) (f g : Fn) (u : Val) :
  let a := AVal (value s) in
  let U1 := result_type (rty f) in
  let U2 := result_type (rty g) in
  d p = Some r -> heap m !! r = Some s -> state s = Fulfilled ->
  fst (body f a) = [] -> snd (body f a) = inr (Some u) -> plain u ->
  fst (body g (AVal u)) = [] -> plain_outcome (snd (body g (AVal u))) ->
  then_chain (invoke (S (S fuel))) p [User f; User g] m =
  (Ret (mkPromise U2 (Some (length (heap m) + 1))),
   mkMachine (heap m ++ [mkState Fulfilled u PromiseError_default [] [];
                         after_callback U2 (snd (body g (AVal u))) (new_State U2)])
             (trace m ++ [Invoked (label f) a; Invoked (label g) (AVal u)])).
Proof.
  intros a U1 U2 Hd Hr Hs Hpf Hof Hu Hpg Hog. subst a.
  assert (Hrn : r < length (heap m)) by (eapply lookup_lt_Some; eauto).
  assert (Hplain : plain_outcome (snd (body f (AVal (value s)))))
    by (rewrite Hof; destruct u; [exact I|exact I|destruct Hu]).
  expose_promise p as T. expose_state s.
  cbn [then_chain]. unfold then_F. cbn [d return_type]. fold U1 U2.
  repeat first
    [ rewrite invoke_HandleFulfilled
    | erewrite handler_of_plain_callback
        by (first [lookup_solve | reflexivity | eassumption])
    | rewrite Hof
    | progress cbn [after_callback]
    | mstep ].
  heap_norm. rewrite <- !app_assoc. reflexivity.
Qed.

(** [Promise<int>::resolved(5).then(successor).then(successor)] *)
Lemma then_then_composes_witness :
  then_chain (invoke 2) (mkPromise TInt (Some 0)) [User (successor 1); User (successor 2)]
    fulfilled_5 =
  (Ret (mkPromise TInt (Some 2)),
   mkMachine [mkState Fulfilled (VInt 5) PromiseError_default [] [];
              mkState Fulfilled (VInt 6) PromiseError_default [] [];
              mkState Fulfilled (VInt 7) PromiseError_default [] []]
             [Invoked 1 (AVal (VInt 5)); Invoked 2 (AVal (VInt 6))]).
Proof.
  exact (then_then_composes 0 fulfilled_5 (mkPromise TInt (Some 0)) 0
           (mkState Fulfilled (VInt 5) PromiseError_default [] [])
           (successor 1) (successor 2) (VInt 6)
           eq_refl eq_refl eq_refl eq_refl eq_refl I eq_refl I).
Defined.

(** ** Rejection handlers *)





(** X11. Fulfilment drops the rejection handlers: [resolve(v)] on a pending
    promise without fulfilment continuations invokes nothing, whatever is
    queued for rejection, and empties the queue; and [catchError(g)] on a
    fulfilled, drained promise changes nothing at all, so [g] can never be
    invoked. *)
Theorem fulfilment_drops_catch_handlers (call : Callable -> Arg -> M (option Val))
    (m : Machine) (p : Promise) (r : nat) (s : State) (v : Val) (G : Callable) :
  d p = Some r -> heap m !! r = Some s -> thenCallbacks s = [] -> plain v ->
  (state s = Pending ->
   resolve call p v m =
   (Ret tt,
    mkMachine (<[r := mkState Fulfilled (if is_void (ty p) then value s else v)
                        (error s) [] []]> (heap m)) (trace m))) /\
  (state s = Fulfilled -> catchCallbacks s = [] ->
   catchError call p G m = (Ret p, m)).
Proof.
  intros Hd Hr Ht Hv.
  assert (Hrn : r < length (heap m)) by (eapply lookup_lt_Some; eauto).
  expose_promise p as T. split.
  - intros Hs. expose_state s. unfold resolve. cbn [ty d].
    destruct (is_void T); [|destruct v as [|z|q]; [| |destruct Hv]];
      mrun; rewrite !list_insert_insert_eq; reflexivity.
  - intros Hs Hc. expose_state s. mrun.
    rewrite !list_insert_insert_eq, list_insert_id by exact Hr.
    destruct m; reflexivity.
Qed.

(** [p.catchError(g); p.resolve(3);] on a pending [Promise<int>]: [g] is
    dropped without being invoked. *)
Lemma fulfilment_drops_catch_handlers_witness :
  resolve (invoke 0) (mkPromise TInt (Some 0)) (VInt 3)
    (mkMachine [mkState Pending (VInt 0) PromiseError_default [] [User throwing_handler]] []) =
  (Ret tt, mkMachine [mkState Fulfilled (VInt 3) PromiseError_default [] []] []).
Proof.
  exact (proj1 (fulfilment_drops_catch_handlers (invoke 0)
                  (mkMachine [mkState Pending (VInt 0) PromiseError_default []
                                [User throwing_handler]] [])
                  (mkPromise TInt (Some 0)) 0
                  (mkState Pending (VInt 0) PromiseError_default [] [User throwing_handler])
                  (VInt 3) (Empty TVoid) eq_refl eq_refl eq_refl I) eq_refl).
Defined.
(** ** Behaviour at the edges *)

(** X12. Once a rejection drain was aborted by a throwing handler, the handler
    stays at the head of the queue of the rejected record. Every later
    [catchError(G)] on that promise appends [G], invokes the throwing handler
    again and lets its exception leave [catchError]; [G] is never reached. *)
Theorem aborted_drain_poisons_catchError (fuel : nat) (m : Machine) (p : Promise)
    (r : nat) (s : State) (g : Fn) (rest : list Callable) (G : Callable) (x : Exn) :
  let a := AErr (error s) in
  d p = Some r -> heap m !! r = Some s -> state s = Rejected ->
  catchCallbacks s = User g :: rest ->
  fst (body g a) = [] -> snd (body g a) = inl x ->
  catchError (invoke (S fuel)) p G m =
  (Throw x,
   mkMachine (<[r := push_catch G s]> (heap m)) (trace m ++ [Invoked (label g) a])).
Proof.
  intros a Hd Hr Hs Hc Hp Hx. subst a.
  expose_promise p as T. expose_state s. expose_fn g (AErr e).
  mrun. reflexivity.
Qed.

(** [p.catchError([](const PromiseError&) {})] on the promise left by
    [p.catchError(throwing_handler); p.reject("x", 1);] *)
Lemma aborted_drain_poisons_catchError_witness :
  catchError (invoke 1) (mkPromise TInt (Some 0)) (User (silent_handler 2)) poisoned =
  (Throw (StdException "boom"),
   mkMachine [mkState Rejected (VInt 0) (mkError "x" 1%Z) []
                [User throwing_handler; User (silent_handler 2)]]
             [Invoked 1 (AErr (mkError "x" 1%Z)); Invoked 1 (AErr (mkError "x" 1%Z))]).
Proof.
  exact (aborted_drain_poisons_catchError 0 poisoned (mkPromise TInt (Some 0)) 0
           (mkState Rejected (VInt 0) (mkError "x" 1%Z) [] [User throwing_handler])
           throwing_handler [] (User (silent_handler 2)) (StdException "boom")
           eq_refl eq_refl eq_refl eq_refl eq_refl eq_refl).
Defined.

(** X13. A continuation that returns a promise without a record: [then] on the
    returned promise yields a temporary promise rejected with "Promise has no
    state", and [catchError] on it does nothing, so neither capability of the
    new promise is ever called: the new promise stays [Pending] with nothing
    queued on it. *)
Theorem stateless_result_leaves_pending (fuel : nat) (m : Machine) (p : Promise)
    (r : nat) (s : State) (f : Fn) (result : Promise) :
  let a := AVal (value s) in
  let U := result_type (rty f) in
  let q := mkPromise U (Some (length (heap m))) in
  let m' := mkMachine (heap m ++ [new_State U; mkState Rejected VUnit no_state [] []])
                      (trace m ++ [Invoked (label f) a]) in
  d p = Some r -> heap m !! r = Some s -> state s = Fulfilled ->
  fst (body f a) = [] -> snd (body f a) = inr (Some (VPromise result)) ->
  d result = None ->
  then_F (invoke (S (S fuel))) p (User f) m = (Ret q, m') /\ isPending q m' = true.
Proof.
  intros a U q m' Hd Hr Hs Hp Ho Hres. subst a q m'.
  assert (Hrn : r < length (heap m)) by (eapply lookup_lt_Some; eauto).
  split.
  - expose_promise p as T. expose_promise result as T'. expose_state s.
    expose_fn f (AVal v). unfold then_F at 1. cbn [d return_type]. fold U.
    mrun. destruct (is_void T'); mrun; heap_norm; rewrite <- !app_assoc; reflexivity.
  - unfold isPending, state_of. cbn [d heap].
    rewrite lookup_app_r, Nat.sub_diag by reflexivity. reflexivity.
Qed.

(** [Promise<int>::resolved(5).then([](const int&) { return Promise<int>(); })] *)
Lemma stateless_result_leaves_pending_witness :
  then_F (invoke 2) (mkPromise TInt (Some 0)) (User (returns_null_promise 1)) fulfilled_5 =
  (Ret (mkPromise TInt (Some 1)),
   mkMachine [mkState Fulfilled (VInt 5) PromiseError_default [] [];
              new_State TInt;
              mkState Rejected VUnit no_state [] []]
             [Invoked 1 (AVal (VInt 5))]).
Proof.
  exact (proj1 (stateless_result_leaves_pending 0 fulfilled_5 (mkPromise TInt (Some 0)) 0
                  (mkState Fulfilled (VInt 5) PromiseError_default [] [])
                  (returns_null_promise 1) (mkPromise TInt None)
                  eq_refl eq_refl eq_refl eq_refl eq_refl eq_refl)).
Defined.

(** X14. A promise produced by [then] that was settled by hand:
    [q = p.then(f)] on a pending promise that has no fulfilment continuation
    queued yet, with an [f] that makes no promise call of its own (it returns
    a plain value, returns nothing or throws), then [q.reject(e)], then
    [p.resolve(v)]. The continuation [f] still runs, once, with the value,
    but whatever it returns or throws is discarded: [q] keeps the error
    [e]. *)
Theorem settled_derived_promise_ignores_callback (fuel : nat) (m : Machine)
    (p : Promise) (r : nat) (s : State) (f : Fn) (v : Val) (e : PromiseError) :
  let av := AVal (if is_void (ty p) then value s else v) in
  let U := result_type (rty f) in
  let n := length (heap m) in
  d p = Some r -> heap m !! r = Some s -> state s = Pending ->
  thenCallbacks s = [] -> plain v ->
  fst (body f av) = [] -> plain_outcome (snd (body f av)) ->
  (q ← then_F (invoke (S (S fuel))) p (User f);
   reject (invoke (S (S fuel))) q e;;
   resolve (invoke (S (S fuel))) p v;;
   mret q) m =
  (Ret (mkPromise U (Some n)),
   mkMachine (<[r := mkState Fulfilled (if is_void (ty p) then value s else v)
                       (error s) [] []]> (heap m)
              ++ [mkState Rejected (default_value U) e [] []])
             (trace m ++ [Invoked (label f) av])).
Proof.
  intros av U n Hd Hr Hs Ht Hv Hpf Hof. subst av n.
  assert (Hrn : r < length (heap m)) by (eapply lookup_lt_Some; eauto).
  expose_promise p as T. expose_state s.
  unfold then_F. cbn [d return_type]. fold U.
  destruct (is_void T) eqn:HT; [|destruct v as [|z|q]; [| |destruct Hv]];
    match type of Hpf with fst (body f ?a) = _ => expose_fn f a end;
    destruct out as [x|[[|z'|q']|]]; cbn [plain_outcome] in Hof; try contradiction;
    unfold resolve; cbn [ty d]; rewrite ?HT;
    repeat first [rewrite decide_True by discriminate | mstep];
    try (destruct (is_void U);
         repeat first [rewrite decide_True by discriminate | mstep]);
    heap_norm; reflexivity.
Qed.

(** [q = p.then(successor); q.reject("boom", 7); p.resolve(3);] on a pending
    [Promise<int>]: [successor] runs, [q] stays rejected with ("boom", 7). *)
Lemma settled_derived_promise_ignores_callback_witness :
  (q ← then_F (invoke 2) (mkPromise TInt (Some 0)) (User (successor 1));
   reject (invoke 2) q (mkError "boom" 7%Z);;
   resolve (invoke 2) (mkPromise TInt (Some 0)) (VInt 3);;
   mret q) pending_1 =
  (Ret (mkPromise TInt (Some 1)),
   mkMachine [mkState Fulfilled (VInt 3) PromiseError_default [] [];
              mkState Rejected (VInt 0) (mkError "boom" 7%Z) [] []]
             [Invoked 1 (AVal (VInt 3))]).
Proof.
  exact (settled_derived_promise_ignores_callback 0 pending_1 (mkPromise TInt (Some 0)) 0
           (new_State TInt) (successor 1) (VInt 3) (mkError "boom" 7%Z)
           eq_refl eq_refl eq_refl eq_refl I eq_refl I).
Defined.

(** ** A drain that never ends *)

(** X15. [p.then(f); p.resolve(v);] for a continuation [f] that calls
    [p.catchError(g)]: the drain started by [resolve] invokes [f], whose
    [catchError] starts a drain of the same queue, which invokes [f] again,
    and so on. The nesting of invocations is unbounded: no recursion budget
    is enough for [resolve] to return. *)
Theorem reentrant_catchError_never_returns (fuel : nat) (m : Machine) (p : Promise)
    (r : nat) (s : State) (l : nat) (g : Fn) (v : Val) :
  d p = Some r -> heap m !! r = Some s -> state s = Pending ->
  thenCallbacks s = [] -> plain v ->
  fst (then_and_resolve fuel p (registers_catch l r g) v m) = OutOfFuel.
Proof.
  intros Hd Hr Hs Ht Hv.
  assert (Hrn : r < length (heap m)) by (eapply lookup_lt_Some; eauto).
  expose_promise p as T. expose_state s.
  set (next := mkPromise TInt (Some (length (heap m)))).
  assert (Hreg :
    then_F (invoke fuel) (mkPromise T (Some r)) (User (registers_catch l r g)) m =
    (Ret next,
     mkMachine (<[r := mkState Pending v0 e
                         [HandleFulfilled (User (registers_catch l r g)) next r]
                         (cc ++ [RejectWith next])]> (heap m) ++ [new_State TInt])
               (trace m))).
  { unfold then_F. cbn [d return_type registers_catch rty result_type].
    mrun. rewrite insert_app_l by exact Hrn. reflexivity. }
  unfold then_and_resolve. rewrite (bind_ret _ _ _ _ _ Hreg).
  assert (Hdrain : forall w h t,
    fst (maybeInvoke (invoke fuel) r
           (mkMachine (<[r := mkState Fulfilled w e
                               [HandleFulfilled (User (registers_catch l r g)) next r]
                               (cc ++ [RejectWith next])]>
                         (<[r := h]> (heap m) ++ [new_State TInt])) t)) = OutOfFuel).
  { intros w h t.
    apply (drain_reenters l r g next [] fuel _
             (mkState Fulfilled w e
                [HandleFulfilled (User (registers_catch l r g)) next r]
                (cc ++ [RejectWith next]))); [|reflexivity|reflexivity].
    cbn [heap]. apply list_lookup_insert_eq. len_solve. }
  unfold resolve. cbn [ty d].
  destruct (is_void T); [|destruct v as [|z|q]; [| |destruct Hv]];
    unfold m_resolveFn, m_resolveFn_void;
    rewrite bind_run;
    match goal with
    | |- context [deref ?k ?M] => erewrite (deref_run k M) by lookup_solve
    end;
    cbn beta iota; cbn [state];
    (destruct (decide (Pending ≠ Pending)) as [Hne|_]; [congruence|]);
    rewrite bind_run; unfold store; cbn beta iota; cbn [heap trace];
    cbn [set_state set_value state value error thenCallbacks catchCallbacks];
    apply Hdrain.
Qed.

(** [p.then([&p](const int&) { p.catchError(g); return 0; }); p.resolve(3);]
    on a pending [Promise<int>], with a budget of 50 nested invocations. *)
Lemma reentrant_catchError_never_returns_witness :
  fst (then_and_resolve 50 (mkPromise TInt (Some 0))
         (registers_catch 1 0 (silent_handler 2)) (VInt 3) pending_1) = OutOfFuel.
Proof.
  exact (reentrant_catchError_never_returns 50 pending_1 (mkPromise TInt (Some 0)) 0
           (new_State TInt) 1 (silent_handler 2) (VInt 3)
           eq_refl eq_refl eq_refl eq_refl I).
Defined.

(** ** The promise returned by [then] *)

Lemma construct_fresh (call : Callable -> Arg -> M (option Val)) (T : Ty)
    (executor : Promise -> M unit) (m m' : Machine) (q : Promise) :
  (forall cb a, preserves (call cb a)) -> (forall this, preserves (executor this)) ->
  construct call T executor m = (Ret q, m') ->
  q = mkPromise T (Some (length (heap m))) /\ is_Some (heap m' !! length (heap m)).
Proof.
  intros Hcall Hex. unfold construct. rewrite bind_run. unfold alloc. cbn beta iota.
  set (this := mkPromise T (Some (length (heap m)))).
  set (m1 := mkMachine (heap m ++ [new_State T]) (trace m)).
  intros H.
  assert (Hfr : preserves
            (try_catch (executor this)
               (fun x => m_rejectFn call (Some (length (heap m))) (error_of_exn x));;
             mret this)).
  { apply preserves_bind; [|intros; apply preserves_ret].
    apply preserves_try_catch; [apply Hex|].
    intros x. apply preserves_m_rejectFn. exact Hcall. }
  specialize (Hfr m1). rewrite H in Hfr. cbn [snd] in Hfr.
  destruct Hfr as [Hrec _].
  destruct (Hrec (length (heap m)) (new_State T)) as (s' & Hs' & _);
    [apply lookup_snoc_at; reflexivity|].
  split; [|rewrite Hs'; eauto].
  rewrite bind_run in H.
  destruct (try_catch _ _ m1) as [[[]|x| |] m2]; try discriminate H.
  rewrite ret_run in H. congruence.
Qed.

(** X16. Whenever a [then] call of either form returns, with any callables and on
    any promise that has a record, the promise it returns is on a record that
    did not exist before the call, so it is never an alias of the receiver or
    of any other existing promise, and the call has changed no status, value
    or error of a record that was settled before. *)
Theorem then_returns_fresh_promise (fuel : nat) (m m' : Machine) (p q : Promise)
    (r : nat) (F G : Callable) :
  d p = Some r ->
  then_F (invoke fuel) p F m = (Ret q, m') \/
  then_FG (invoke fuel) p F G m = (Ret q, m') ->
  q = mkPromise (result_type (return_type F)) (Some (length (heap m))) /\
  heap m !! length (heap m) = None /\
  is_Some (heap m' !! length (heap m)) /\
  frozen m m'.
Proof.
  intros Hd H.
  assert (Hcall : forall cb a, preserves (invoke fuel cb a))
    by (intros; apply preserves_invoke).
  assert (Hnone : heap m !! length (heap m) = None)
    by (apply lookup_ge_None; lia).
  destruct H as [H|H].
  - pose proof (preserves_then_F (invoke fuel) Hcall p F m) as Hfr.
    rewrite H in Hfr. cbn [snd] in Hfr.
    unfold then_F in H. rewrite Hd in H.
    apply construct_fresh in H as [-> Hsome]; [auto|exact Hcall|].
    intros next. apply preserves_then_executor. exact Hcall.
  - pose proof (preserves_then_FG (invoke fuel) Hcall p F G m) as Hfr.
    rewrite H in Hfr. cbn [snd] in Hfr.
    unfold then_FG, PromiseVoid_then_FG, Promise_then_FG in H. rewrite Hd in H.
    destruct (is_void (ty p));
      (apply construct_fresh in H as [-> Hsome]; [auto|exact Hcall|]);
      intros next; apply preserves_then_executor; exact Hcall.
Qed.

(** [p.then(successor)] on a promise fulfilled with 5 returns a promise on the
    second record. *)
Lemma then_returns_fresh_promise_witness :
  mkPromise TInt (Some 1) = mkPromise TInt (Some 1) /\
  heap fulfilled_5 !! 1 = None /\
  is_Some (heap (snd (then_F (invoke 2) (mkPromise TInt (Some 0)) (User (successor 1))
                        fulfilled_5)) !! 1) /\
  frozen fulfilled_5
    (snd (then_F (invoke 2) (mkPromise TInt (Some 0)) (User (successor 1)) fulfilled_5)).
Proof.
  exact (then_returns_fresh_promise 2 fulfilled_5 _ (mkPromise TInt (Some 0))
           (mkPromise TInt (Some 1)) 0 (User (successor 1)) (Empty TVoid) eq_refl
           (or_introl eq_refl)).
Defined.
